(** * rpc::connection_cache: the per-shard registry of client transports

    A shallow embedding of [src/v/rpc/connection_cache.cc] and the
    properties of its three operations, [emplace], [remove] and [stop].

    The translation unit only contains the member functions.  What they
    use and the file does not define is modelled as follows.

    - The seastar primitives ([with_semaphore], [parallel_for_each],
      futures, [make_lw_shared]) follow seastar's documented behaviour:
      a counting semaphore with a FIFO wait list, continuations that run
      either at once or as a later task of the same shard, a store of
      shared objects addressed by handles.  Reference counts are not
      kept: an object stays in the store after its last pointer is gone.
    - The members [_cache] and [_sem] are declared in
      [rpc/connection_cache.h]; [_cache] is used through [emplace] and
      [erase] of a unique-key associative container, [_sem] through
      [with_semaphore].
    - [shard_for], [lookup] and [reconnect_transport] are modelled from
      the specification, each definition says so. *)

From stdpp Require Import base gmap list strings.

Set Default Proof Using "Type".

Module rpc.

(** [model::node_id] is a named 32 bit integer, [seastar::shard_id] an
    unsigned.  A handle is the address of an object made by
    [make_lw_shared]; a future is named by the index of its cell. *)
Abbreviation node_id := Z (only parsing).
Abbreviation shard_id := nat (only parsing).
Abbreviation handle := nat (only parsing).
Abbreviation future_id := nat (only parsing).

(** ** Exceptions and futures *)

(** The text built by [fmt::format("Cannot {}, node:{}, belonging to
    shard:{}, on shard:{}", ...)], kept as its arguments. *)
Record affinity_message := Cannot {
  msg_operation : string;
  msg_node : node_id;
  msg_belonging_to : shard_id;
  msg_on_shard : shard_id
}.

Inductive exception :=
| runtime_error (what : affinity_message)
| transport_failure (code : nat).

Inductive future_state :=
| pending
| ready
| failed (e : exception).

(** Who fulfils the promise behind a future: the continuation of a
    mutation of the registry, or a transport that was asked to stop. *)
Inductive promise_owner :=
| of_mutation
| of_transport (h : handle).

Record future_cell := FutureCell {
  owner : promise_owner;
  state : future_state
}.

(** [future<>] as the callers of the registry see it: one cell, or the
    future of [parallel_for_each] that depends on one cell per element. *)
Inductive future :=
| single (f : future_id)
| for_each (fs : list future_id).

(** A call either throws before it returns, or returns a future. *)
Inductive outcome :=
| threw (e : exception)
| returned (f : future).

(** ** Instrumentation of the semaphore *)

Inductive slot_event :=
| acquired (f : future_id)
| executed (f : future_id)
| released (f : future_id).

Section registry.

(** [rpc::transport_configuration] is declared in [rpc/types.h]. *)
Context {transport_configuration : Type}.

(** The placement function behind [shard_for]: the specification takes
    it as an opaque policy of the shard count and the node. *)
Context (placement : nat → node_id → shard_id).

(** Modelled from the spec: [rpc::reconnect_transport]
    ([rpc/reconnect_transport.h] is not among the sources).  It is
    constructed from a configuration; [stop()] is a request to shut down,
    answered through a future.  The model keeps the configuration and
    counts the requests. *)
Record reconnect_transport := Transport {
  config : transport_configuration;
  stop_requests : nat
}.

(** The two lambdas given to [with_semaphore], with their captures. *)
Inductive mutation :=
| emplace_body (n : node_id) (c : transport_configuration)
| erase_body (n : node_id).

(** A continuation waiting for, or holding, units of the semaphore. *)
Record waiter := Waiter {
  units : nat;
  promise : future_id;
  body : mutation
}.

(** [seastar::semaphore]: the available units and the FIFO wait list. *)
Record semaphore := Semaphore {
  count : nat;
  wait_list : list waiter
}.

(** The members of [rpc::connection_cache]. *)
Record connection_cache := ConnectionCache {
  _cache : gmap node_id handle;
  _sem : semaphore
}.

(** One shard: [engine()], the registry instance of the shard, the
    objects made by [make_lw_shared], the futures handed out, the
    continuations that hold units and wait for the scheduler, and the
    log of the instrumented semaphore (written, never read). *)
Record shard := Shard {
  cpu_id : shard_id;
  smp_count : nat;
  this : connection_cache;
  heap : list reconnect_transport;
  futures : list future_cell;
  run_queue : list waiter;
  slot_log : list slot_event
}.

Definition with_this (s : shard) (r : connection_cache) : shard :=
  Shard (cpu_id s) (smp_count s) r (heap s) (futures s) (run_queue s)
        (slot_log s).

Definition with_heap (s : shard) (hp : list reconnect_transport) : shard :=
  Shard (cpu_id s) (smp_count s) (this s) hp (futures s) (run_queue s)
        (slot_log s).

Definition with_futures (s : shard) (fs : list future_cell) : shard :=
  Shard (cpu_id s) (smp_count s) (this s) (heap s) fs (run_queue s)
        (slot_log s).

Definition with_run_queue (s : shard) (q : list waiter) : shard :=
  Shard (cpu_id s) (smp_count s) (this s) (heap s) (futures s) q
        (slot_log s).

Definition log (s : shard) (evs : list slot_event) : shard :=
  Shard (cpu_id s) (smp_count s) (this s) (heap s) (futures s) (run_queue s)
        (slot_log s ++ evs).

Definition with_cache (s : shard) (m : gmap node_id handle) : shard :=
  with_this s (ConnectionCache m (_sem (this s))).

Definition with_sem (s : shard) (sem : semaphore) : shard :=
  with_this s (ConnectionCache (_cache (this s)) sem).

(** Modelled from the spec: [shard_for] (declared outside
    [connection_cache.cc]).  Section 4.1: a pure, deterministic function
    of the node identifier for a given shard count; it cannot fail and
    reads nothing else. *)
Definition shard_for (s : shard) (n : node_id) : shard_id :=
  placement (smp_count s) n.

(** ** Futures *)

Definition make_future (o : promise_owner) (s : shard) : shard * future_id :=
  (with_futures s (futures s ++ [FutureCell o pending]), length (futures s)).

Definition set_state (st : future_state) (c : future_cell) : future_cell :=
  FutureCell (owner c) st.

Definition resolve (f : future_id) (st : future_state) (s : shard) : shard :=
  with_futures s (alter (set_state st) f (futures s)).

Definition cell_state (s : shard) (f : future_id) : future_state :=
  match futures s !! f with
  | Some c => state c
  | None => pending
  end.

Definition is_pending (st : future_state) : bool :=
  match st with pending => true | _ => false end.

Definition is_failed (st : future_state) : bool :=
  match st with failed _ => true | _ => false end.

(** [parallel_for_each] "returns a future that resolves when all the
    function invocations complete; if one or more return an exception,
    the return value contains one of the exceptions". *)
Definition for_each_state (s : shard) (fs : list future_id) : future_state :=
  let sts := cell_state s <$> fs in
  if existsb is_pending sts then pending
  else match filter (λ st, is_failed st = true) sts with
       | st :: _ => st
       | [] => ready
       end.

Definition future_status (s : shard) (f : future) : future_state :=
  match f with
  | single i => cell_state s i
  | for_each fs => for_each_state s fs
  end.

(** ** The semaphore *)

Definition may_proceed (nr : nat) (sem : semaphore) : bool :=
  (nr <=? count sem) && bool_decide (wait_list sem = []).

(** [semaphore::wait(nr)]: take the units when they are there and nobody
    waits, else join the wait list. *)
Definition wait (w : waiter) (sem : semaphore) : semaphore * bool :=
  if may_proceed (units w) sem
  then (Semaphore (count sem - units w) (wait_list sem), true)
  else (Semaphore (count sem) (wait_list sem ++ [w]), false).

(** The loop of [semaphore::signal]: serve the wait list from its front
    as long as the front fits. *)
Fixpoint wake (cnt : nat) (wl : list waiter) : nat * list waiter * list waiter :=
  match wl with
  | [] => (cnt, [], [])
  | w :: wl' =>
      if units w <=? cnt
      then let '(cnt', woken, rest) := wake (cnt - units w) wl' in
           (cnt', w :: woken, rest)
      else (cnt, [], wl)
  end.

Definition signal (nr : nat) (sem : semaphore) : semaphore * list waiter :=
  let '(cnt, woken, rest) := wake (count sem + nr) (wait_list sem) in
  (Semaphore cnt rest, woken).

(** ** The bodies of the mutations *)

(** [make_lw_shared<rpc::reconnect_transport>(c)]: a new transport at a
    new address, with no request to stop yet. *)
Definition make_lw_shared (c : transport_configuration) (s : shard)
  : shard * handle :=
  (with_heap s (heap s ++ [Transport c 0]), length (heap s)).

(** [_cache.emplace(n, p)] on a unique-key associative container: the
    element is inserted only when no element has the key. *)
Definition cache_emplace (n : node_id) (p : handle) (m : gmap node_id handle)
  : gmap node_id handle :=
  match m !! n with
  | Some _ => m
  | None => <[n := p]> m
  end.

(** [_cache.erase(n)]. *)
Definition cache_erase (n : node_id) (m : gmap node_id handle)
  : gmap node_id handle :=
  delete n m.

(** The argument of [emplace] is evaluated first: the transport is built
    whether or not the map takes it.  The store keeps every object that
    was made.  [erase], and an [emplace] that finds the key, release a
    pointer of the map; the object is destroyed when that was its last
    pointer, and this is not modelled: what the store says of a
    transport that no entry refers to is what it was when the map let go
    of it, not that it is still alive. *)
Definition run_body (b : mutation) (s : shard) : shard :=
  match b with
  | emplace_body n c =>
      let '(s1, p) := make_lw_shared c s in
      with_cache s1 (cache_emplace n p (_cache (this s1)))
  | erase_body n =>
      with_cache s (cache_erase n (_cache (this s)))
  end.

(** The continuation of [with_semaphore] once it holds its units: run
    the function, give the units back (which hands them to the waiters
    that now fit and schedules them), fulfil the promise. *)
Definition execute (w : waiter) (s : shard) : shard :=
  let s1 := log (run_body (body w) s) [executed (promise w)] in
  let '(sem, woken) := signal (units w) (_sem (this s1)) in
  let s2 := log (with_sem s1 sem)
                (released (promise w) :: (acquired ∘ promise <$> woken)) in
  let s3 := with_run_queue s2 (run_queue s2 ++ woken) in
  resolve (promise w) ready s3.

(** [with_semaphore(sem, nr, func)].  [need_preempt] is the scheduler's
    answer when the units are there at the call: [false] runs the
    continuation within the call, [true] makes it a task. *)
Definition with_semaphore (nr : nat) (func : mutation) (need_preempt : bool)
    (s : shard) : shard * future_id :=
  let '(s1, f) := make_future of_mutation s in
  let w := Waiter nr f func in
  let '(sem, got) := wait w (_sem (this s1)) in
  let s2 := with_sem s1 sem in
  if got then
    let s3 := log s2 [acquired f] in
    if need_preempt
    then (with_run_queue s3 (run_queue s3 ++ [w]), f)
    else (execute w s3, f)
  else (s2, f).

(** The scheduler runs the first task of the shard. *)
Definition run_task (s : shard) : shard :=
  match run_queue s with
  | [] => s
  | w :: q => execute w (with_run_queue s q)
  end.

(** ** connection_cache.cc *)

Definition emplace (n : node_id) (c : transport_configuration)
    (need_preempt : bool) (s : shard) : shard * outcome :=
  let sh := shard_for s n in
  if bool_decide (sh ≠ cpu_id s)
  then (s, threw (runtime_error (Cannot "::emplace" n sh (cpu_id s))))
  else let '(s', f) := with_semaphore 1 (emplace_body n c) need_preempt s in
       (s', returned (single f)).

Definition remove (n : node_id) (need_preempt : bool) (s : shard)
  : shard * outcome :=
  let sh := shard_for s n in
  if bool_decide (sh ≠ cpu_id s)
  then (s, threw (runtime_error (Cannot "::remove" n sh (cpu_id s))))
  else let '(s', f) := with_semaphore 1 (erase_body n) need_preempt s in
       (s', returned (single f)).

(** [cli->stop()] on the transport behind a handle: one more request,
    and the future of its completion. *)
Definition bump (t : reconnect_transport) : reconnect_transport :=
  Transport (config t) (S (stop_requests t)).

Definition transport_stop (p : handle) (s : shard) : shard * future_id :=
  make_future (of_transport p) (with_heap s (alter bump p (heap s))).

(** [parallel_for_each(range, func)]: [func] is called on every element
    in turn, whatever the earlier calls returned. *)
Fixpoint parallel_for_each {A} (range : list A)
    (func : A → shard → shard * future_id) (s : shard)
  : shard * list future_id :=
  match range with
  | [] => (s, [])
  | x :: range' =>
      let '(s1, f) := func x s in
      let '(s2, fs) := parallel_for_each range' func s1 in
      (s2, f :: fs)
  end.

Definition stop (s : shard) : shard * outcome :=
  let '(s', fs) :=
    parallel_for_each (map_to_list (_cache (this s)))
                      (λ it, transport_stop it.2) s in
  (s', returned (for_each fs)).

(** Modelled from the spec: [lookup] (the accessors of
    [rpc/connection_cache.h] are not among the sources).  Section 4.2:
    the current shared handle for the node on the local shard if
    present, otherwise an empty result; it does not mutate. *)
Definition lookup (n : node_id) (s : shard) : option handle :=
  _cache (this s) !! n.

(** The transport behind a handle, and the configuration it was built
    from. *)
Definition transport_at (s : shard) (p : handle) : option reconnect_transport :=
  heap s !! p.

Definition lookup_config (n : node_id) (s : shard)
  : option transport_configuration :=
  p ← lookup n s; t ← transport_at s p; Some (config t).

(** ** Runs of a shard *)

(** A transport answers a request to stop. *)
Definition transport_stopped (f : future_id) (r : option exception) (s : shard)
  : shard :=
  match futures s !! f with
  | Some (FutureCell (of_transport _) pending) =>
      resolve f (from_option failed ready r) s
  | _ => s
  end.

Inductive event :=
| call_emplace (n : node_id) (c : transport_configuration) (need_preempt : bool)
| call_remove (n : node_id) (need_preempt : bool)
| call_stop
| task
| stopped (f : future_id) (r : option exception).

Definition step (e : event) (s : shard) : shard :=
  match e with
  | call_emplace n c p => (emplace n c p s).1
  | call_remove n p => (remove n p s).1
  | call_stop => (stop s).1
  | task => run_task s
  | stopped f r => transport_stopped f r s
  end.

Definition run (evs : list event) (s : shard) : shard :=
  foldl (λ s e, step e s) s evs.

(** Run the tasks of the shard until none is left: every continuation
    that holds or waits for units is one task. *)
Definition settle (s : shard) : shard :=
  Nat.iter (length (run_queue s) + length (wait_list (_sem (this s))))
           run_task s.

(** Modelled from the spec: the registry of a shard as it is
    constructed ([rpc/connection_cache.h] is not among the sources).
    Section 4.2: an empty mapping and a single-slot semaphore. *)
Definition fresh (cpu : shard_id) (smp : nat) : shard :=
  Shard cpu smp (ConnectionCache ∅ (Semaphore 1 [])) [] [] [] [].

End registry.

End rpc.

Import rpc.

(** * Scenarios

    A cluster of two shards whose nodes are placed by their identifier
    modulo the shard count, with texts for configurations. *)

Definition modulo (smp : nat) (n : Z) : nat :=
  Z.to_nat (n `mod` Z.of_nat smp).

Definition shard0 : shard (transport_configuration := string) := fresh 0 2.

Definition shard1 : shard (transport_configuration := string) := fresh 1 2.

(** Shard 0 after [emplace(6, "C0")] has completed as a task. *)
Definition one_entry : shard (transport_configuration := string) :=
  settle (emplace modulo 6 "C0" true shard0).1.

(** Scenario B of the specification: [emplace(4, "C1")], then
    [emplace(4, "C2")], each completed before the next call. *)
Definition scenario_B : shard (transport_configuration := string) :=
  settle (emplace modulo 4 "C2" false
            (settle (emplace modulo 4 "C1" false shard0).1)).1.

(** Scenario A of the specification: [emplace(4, "C1")], then [stop()]. *)
Definition scenario_A : shard (transport_configuration := string) :=
  (stop (settle (emplace modulo 4 "C1" false shard0).1)).1.

(** Two entries, then [stop()]; the first shutdown fails, the second
    succeeds. *)
Definition two_entries : shard (transport_configuration := string) :=
  settle (emplace modulo 4 "C1" false one_entry).1.

Definition shutdown_answers : list (event (transport_configuration := string)) :=
  [stopped 2 (Some (transport_failure 7)); stopped 3 None].

(** The calls that lead a fresh shard 0 to two entries. *)
Definition two_entries_calls : list (event (transport_configuration := string)) :=
  [call_emplace 6 "C0" true; task; call_emplace 4 "C1" false].

(** Shard 0 while an [emplace] holds the slot and another waits. *)
Definition busy_calls : list (event (transport_configuration := string)) :=
  [call_emplace 4 "a" true; call_emplace 6 "b" false].

Definition busy : shard (transport_configuration := string) :=
  run modulo busy_calls shard0.

Definition later_calls : list (event (transport_configuration := string)) :=
  [call_remove 6 true; call_emplace 8 "d" false; call_emplace 3 "e" false;
   task; call_stop; call_emplace 6 "f" true].

(** Three mutations called while the first holds the slot. *)
Definition contention : list (event (transport_configuration := string)) :=
  [call_emplace 4 "a" true; call_emplace 6 "b" false; call_remove 4 true;
   task; call_emplace 4 "c" false; task; task; task].

(** * Properties *)

Section properties.

Context {transport_configuration : Type}.
Context (placement : nat → Z → nat).

Local Abbreviation shard :=
  (shard (transport_configuration := transport_configuration)).
Local Abbreviation shard_for := (shard_for placement).
Local Abbreviation emplace := (emplace placement).
Local Abbreviation remove := (remove placement).

(** The error of the specification for a mutation on a shard that does
    not own the node: the [std::runtime_error] whose text names two
    different shards. *)
Definition ShardAffinityViolation (e : exception) : Prop :=
  ∃ msg, e = runtime_error msg ∧ msg_belonging_to msg ≠ msg_on_shard msg.

(** No mutation holds the units of the semaphore or waits for them. *)
Definition idle (s : shard) : Prop :=
  _sem (this s) = Semaphore 1 [] ∧ run_queue s = [].

(** The node a mutation is about. *)
Definition target (b : mutation (transport_configuration := transport_configuration))
  : Z :=
  match b with
  | emplace_body n _ => n
  | erase_body n => n
  end.

(** What a mutation about another node leaves alone: the entry of [m]
    and the transport behind it. *)
Definition frame (m : Z) (s s' : shard) : Prop :=
  lookup m s' = lookup m s ∧
  ∀ p t, lookup m s = Some p → transport_at s p = Some t →
         transport_at s' p = Some t.

(** Every handle of the map points into the store. *)
Definition allocated (s : shard) : bool :=
  forallb (λ it, it.2 <? length (heap s)) (map_to_list (_cache (this s))).

(** How many elements of a range hold the handle [p]. *)
Definition requests_to (p : nat) (range : list (Z * nat)) : nat :=
  length (filter (λ it, it.2 = p) range).

(** The mutation slot as its log shows it: free, held by a continuation
    that has not run its body yet, or held by one that has. *)
Inductive slot :=
| slot_free
| slot_held (f : nat)
| slot_running (f : nat).

(** A log is read event by event; an event that does not fit the state
    of the slot (a second acquisition, a body run without the units, a
    release by another) has no successor. *)
Definition slot_next (st : slot) (e : slot_event) : option slot :=
  match st, e with
  | slot_free, acquired f => Some (slot_held f)
  | slot_held f, executed g =>
      if decide (f = g) then Some (slot_running f) else None
  | slot_running f, released g =>
      if decide (f = g) then Some slot_free else None
  | _, _ => None
  end.

Fixpoint slot_after (st : slot) (l : list slot_event) : option slot :=
  match l with
  | [] => Some st
  | e :: l' => st' ← slot_next st e; slot_after st' l'
  end.

(** Whether a state of the slot counts as a mutation in flight, and the
    continuation that has the units but has not run yet. *)
Definition occupancy (st : slot) : Z :=
  match st with slot_free => 0%Z | _ => 1%Z end.

Definition awaiting (st : slot) : list nat :=
  match st with slot_held f => [f] | _ => [] end.

(** The number of mutations in flight after a log: acquisitions less
    releases. *)
Definition holders (l : list slot_event) : Z :=
  foldr (λ e k, match e with
                | acquired _ => k + 1
                | executed _ => k
                | released _ => k - 1
                end)%Z 0%Z l.

(** The order in which the units were taken, and the order in which the
    bodies ran. *)
Definition acquisitions (l : list slot_event) : list nat :=
  omap (λ e, match e with acquired f => Some f | _ => None end) l.

Definition executions (l : list slot_event) : list nat :=
  omap (λ e, match e with executed f => Some f | _ => None end) l.

(** The invariant of the semaphore of a registry: the units are either
    all there, with nobody waiting, or with the one scheduled
    continuation, and the log agrees. *)
Definition serial (s : shard) : Prop :=
  match run_queue s with
  | [] =>
      _sem (this s) = Semaphore 1 [] ∧
      slot_after slot_free (slot_log s) = Some slot_free
  | [w] =>
      count (_sem (this s)) = 0 ∧ units w = 1 ∧
      Forall (λ w', units w' = 1) (wait_list (_sem (this s))) ∧
      slot_after slot_free (slot_log s) = Some (slot_held (promise w))
  | _ => False
  end.

(** No two nodes share a transport. *)
Definition distinct_handles (s : shard) : Prop :=
  ∀ n1 n2 p, lookup n1 s = Some p → lookup n2 s = Some p → n1 = n2.

(** The continuations that hold the units or wait for them, in the
    order in which they will run, and their bodies. *)
Definition queue (s : shard)
  : list (waiter (transport_configuration := transport_configuration)) :=
  run_queue s ++ wait_list (_sem (this s)).

Definition backlog (s : shard)
  : list (mutation (transport_configuration := transport_configuration)) :=
  body <$> queue s.

(** The map of a shard and the configurations of the transports built
    so far, in the order of their construction. *)
Definition view (s : shard) : gmap Z nat * list transport_configuration :=
  (_cache (this s), config <$> heap s).

(** [run_body] as it acts on a view. *)
Definition apply_body
    (b : mutation (transport_configuration := transport_configuration))
    (v : gmap Z nat * list transport_configuration)
  : gmap Z nat * list transport_configuration :=
  match b with
  | emplace_body n c => (cache_emplace n (length v.2) v.1, v.2 ++ [c])
  | erase_body n => (cache_erase n v.1, v.2)
  end.

Definition apply_bodies
    (bs : list (mutation (transport_configuration := transport_configuration)))
    (v : gmap Z nat * list transport_configuration)
  : gmap Z nat * list transport_configuration :=
  foldl (λ v b, apply_body b v) v bs.

(** The bodies of a list of mutations run one after the other. *)
Definition run_bodies
    (bs : list (mutation (transport_configuration := transport_configuration)))
    (s : shard) : shard :=
  foldl (λ st b, run_body b st) s bs.

(** The mutations that a list of events calls on a shard and that pass
    the test of the shard, in the order of the calls. *)
Definition accepted (s : shard)
    (evs : list (event (transport_configuration := transport_configuration)))
  : list (mutation (transport_configuration := transport_configuration)) :=
  omap (λ e, match e with
             | call_emplace n c _ =>
                 if bool_decide (shard_for s n = cpu_id s)
                 then Some (emplace_body n c) else None
             | call_remove n _ =>
                 if bool_decide (shard_for s n = cpu_id s)
                 then Some (erase_body n) else None
             | _ => None
             end) evs.

(** The call that asks for a mutation. *)
Definition call_of
    (b : mutation (transport_configuration := transport_configuration))
    (need_preempt : bool)
  : event (transport_configuration := transport_configuration) :=
  match b with
  | emplace_body n c => call_emplace n c need_preempt
  | erase_body n => call_remove n need_preempt
  end.

(** Every entry of the map, and every mutation that holds the units or
    waits for them, is about a node that the shard owns. *)
Definition owned (s : shard) : Prop :=
  (∀ n, is_Some (lookup n s) → shard_for s n = cpu_id s) ∧
  Forall (λ w, shard_for s (target (body w)) = cpu_id s) (queue s).

(** Every future of a mutation is ready or belongs to a continuation
    that holds the units or waits for them. *)
Definition tracked (s : shard) : Prop :=
  ∀ f c, futures s !! f = Some c → owner c = of_mutation →
         state c = ready ∨ f ∈ promise <$> queue s.

(** ** The bodies *)

Lemma run_body_emplace_absent n c (s : shard) :
  lookup n s = None →
  lookup n (run_body (emplace_body n c) s) = Some (length (heap s)).
Proof.
  unfold lookup, run_body, cache_emplace; simpl. intros ->.
  by rewrite lookup_insert_eq.
Qed.

Lemma run_body_emplace_present n c p (s : shard) :
  lookup n s = Some p →
  _cache (this (run_body (emplace_body n c) s)) = _cache (this s).
Proof. unfold lookup, run_body, cache_emplace; simpl. by intros ->. Qed.

Lemma run_body_erase_absent n (s : shard) :
  lookup n s = None →
  _cache (this (run_body (erase_body n) s)) = _cache (this s).
Proof. unfold lookup, run_body, cache_erase; simpl. apply delete_id. Qed.

Lemma run_body_other b m (s : shard) :
  target b ≠ m → lookup m (run_body b s) = lookup m s.
Proof.
  destruct b as [n c|n]; unfold lookup, run_body, cache_emplace, cache_erase;
    simpl; intros Hne.
  - destruct (_cache (this s) !! n); [done|]. by rewrite lookup_insert_ne.
  - by rewrite lookup_delete_ne.
Qed.

(** The store only grows: a body never touches an existing transport. *)
Lemma run_body_heap b (s : shard) p t :
  transport_at s p = Some t → transport_at (run_body b s) p = Some t.
Proof.
  destruct b as [n c|n]; unfold transport_at, run_body; simpl; [|done].
  intros H. by apply lookup_app_l_Some.
Qed.

Lemma run_body_heap_new n c (s : shard) :
  transport_at (run_body (emplace_body n c) s) (length (heap s))
  = Some (Transport c 0).
Proof.
  unfold transport_at, run_body; simpl.
  by rewrite lookup_app_r, Nat.sub_diag by lia.
Qed.

Lemma lookup_config_intro n (s : shard) p t :
  lookup n s = Some p → transport_at s p = Some t →
  lookup_config n s = Some (config t).
Proof. unfold lookup_config. intros -> Ht. simpl. by rewrite Ht. Qed.

(** ** A mutation on an idle shard *)

(** Whether the continuation runs within the call or as a task, once the
    shard has settled the body has run on the state of the call, the
    units are back and the future is ready. *)
Lemma with_semaphore_settled b need_preempt (s : shard) :
  idle s →
  let s2 := settle (with_semaphore 1 b need_preempt s).1 in
  (with_semaphore 1 b need_preempt s).2 = length (futures s) ∧
  idle s2 ∧
  cell_state s2 (length (futures s)) = ready ∧
  _cache (this s2) = _cache (this (run_body b s)) ∧
  heap s2 = heap (run_body b s) ∧
  cpu_id s2 = cpu_id s ∧ smp_count s2 = smp_count s.
Proof.
  destruct s as [cpu smp [m sem] hp fs rq lg]. intros [Hsem Hrq].
  simpl in Hsem, Hrq. subst sem rq.
  assert (Hcell : ∀ o, state <$> (alter (set_state ready) (length fs)
                    (fs ++ [FutureCell o pending]) !! length fs) = Some ready).
  { intros o. rewrite list_lookup_alter_eq, lookup_app_r by lia.
    by rewrite Nat.sub_diag. }
  destruct need_preempt, b as [n c|n];
    (repeat split; try done);
    unfold cell_state; cbn;
    specialize (Hcell of_mutation);
    by destruct (alter _ _ _ !! _) as [[? ?]|]; simplify_eq/=.
Qed.

Lemma emplace_owning n c need_preempt (s : shard) :
  shard_for s n = cpu_id s →
  emplace n c need_preempt s
  = ((with_semaphore 1 (emplace_body n c) need_preempt s).1,
     returned (single (with_semaphore 1 (emplace_body n c) need_preempt s).2)).
Proof.
  intros Hown. unfold rpc.emplace.
  rewrite bool_decide_eq_false_2 by (intros H; by apply H).
  by destruct (with_semaphore _ _ _ _).
Qed.

Lemma remove_owning n need_preempt (s : shard) :
  shard_for s n = cpu_id s →
  remove n need_preempt s
  = ((with_semaphore 1 (erase_body n) need_preempt s).1,
     returned (single (with_semaphore 1 (erase_body n) need_preempt s).2)).
Proof.
  intros Hown. unfold rpc.remove.
  rewrite bool_decide_eq_false_2 by (intros H; by apply H).
  by destruct (with_semaphore _ _ _ _).
Qed.

Lemma emplace_foreign n c need_preempt (s : shard) :
  shard_for s n ≠ cpu_id s →
  emplace n c need_preempt s
  = (s, threw (runtime_error (Cannot "::emplace" n (shard_for s n) (cpu_id s)))).
Proof. intros H. unfold rpc.emplace. by rewrite bool_decide_eq_true_2. Qed.

Lemma remove_foreign n need_preempt (s : shard) :
  shard_for s n ≠ cpu_id s →
  remove n need_preempt s
  = (s, threw (runtime_error (Cannot "::remove" n (shard_for s n) (cpu_id s)))).
Proof. intros H. unfold rpc.remove. by rewrite bool_decide_eq_true_2. Qed.

(** ** The semaphore *)

(** A wait for one unit always leaves a mark on the semaphore. *)
Lemma wait_marks (w : waiter (transport_configuration := transport_configuration))
    sem :
  units w = 1 → (wait w sem).1 ≠ sem.
Proof.
  intros Hu. unfold wait, may_proceed. rewrite Hu.
  destruct sem as [cnt wl].
  cbn [count wait_list].
  destruct (Nat.leb_spec 1 cnt) as [Hc|Hc]; cbn [andb].
  - case_bool_decide as Hwl; cbn [fst]; intros Heq.
    + apply (f_equal count) in Heq. cbn [count] in Heq. lia.
    + apply (f_equal (length ∘ wait_list)) in Heq. cbn in Heq.
      rewrite length_app in Heq. cbn in Heq. lia.
  - cbn [fst]. intros Heq.
    apply (f_equal (length ∘ wait_list)) in Heq. cbn in Heq.
    rewrite length_app in Heq. cbn in Heq. lia.
Qed.

(** C3: a mutation called on a shard that does not own the node throws
    at once, with the error that names the owning shard and the shard of
    the call (the ShardAffinityViolation of the specification), and the
    map of the shard is as it was. *)
Theorem foreign_mutation_throws n c need_preempt (s : shard) :
  shard_for s n ≠ cpu_id s →
  let i := emplace n c need_preempt s in
  let r := remove n need_preempt s in
  i.2 = threw (runtime_error (Cannot "::emplace" n (shard_for s n) (cpu_id s))) ∧
  r.2 = threw (runtime_error (Cannot "::remove" n (shard_for s n) (cpu_id s))) ∧
  (∀ e, i.2 = threw e ∨ r.2 = threw e → ShardAffinityViolation e) ∧
  _cache (this i.1) = _cache (this s) ∧
  _cache (this r.1) = _cache (this s).
Proof.
  intros Hne i r. subst i r.
  rewrite emplace_foreign, remove_foreign by done. simpl.
  repeat split; try done.
  intros e [[= <-]|[= <-]]; unfold ShardAffinityViolation;
    (eexists; split; [reflexivity|]); done.
Qed.

(** C10: the test of the shard comes before [with_semaphore]: a mutation
    called on the wrong shard has neither waited for nor taken the units
    (either would have changed the semaphore), it has scheduled nothing
    and created no future. *)
Theorem foreign_mutation_spares_semaphore n c need_preempt (s : shard) :
  shard_for s n ≠ cpu_id s →
  let i := (emplace n c need_preempt s).1 in
  let r := (remove n need_preempt s).1 in
  (_sem (this i) = _sem (this s) ∧ _sem (this r) = _sem (this s)) ∧
  (run_queue i = run_queue s ∧ run_queue r = run_queue s) ∧
  (slot_log i = slot_log s ∧ slot_log r = slot_log s) ∧
  (futures i = futures s ∧ futures r = futures s) ∧
  (∀ w, units w = 1 →
        (wait w (_sem (this s))).1 ≠ _sem (this i) ∧
        (wait w (_sem (this s))).1 ≠ _sem (this r)).
Proof.
  intros Hne i r. subst i r.
  rewrite emplace_foreign, remove_foreign by done. simpl.
  repeat split; try done; by apply wait_marks.
Qed.

Lemma execute_store w (s : shard) :
  _cache (this (execute w s)) = _cache (this (run_body (body w) s)) ∧
  heap (execute w s) = heap (run_body (body w) s).
Proof.
  unfold execute. cbv zeta.
  by destruct (signal _ _) as [sem woken].
Qed.

(** ** Mutations on the owning shard *)

(** C6: on the owning shard, [remove] of a node without entry is not an
    error and changes nothing.  With no mutation under way the call
    returns a future that becomes ready, and the map (as the store of
    transports) is as it was; and whenever the body of a [remove] runs
    on a map without the node, the map is as it was. *)
Theorem remove_absent_is_noop n need_preempt (s : shard) :
  idle s → shard_for s n = cpu_id s → lookup n s = None →
  let r := remove n need_preempt s in
  let s' := settle r.1 in
  (∃ f, r.2 = returned (single f) ∧ future_status s' (single f) = ready) ∧
  _cache (this s') = _cache (this s) ∧
  heap s' = heap s ∧
  idle s' ∧
  (∀ w (s0 : shard), body w = erase_body n → lookup n s0 = None →
     _cache (this (execute w s0)) = _cache (this s0)).
Proof.
  intros Hidle Hown Habs r s'. subst r s'. rewrite remove_owning by done.
  destruct (with_semaphore_settled (erase_body n) need_preempt s Hidle)
    as (Hf & Hi & Hst & Hc & Hh & _). cbn [fst snd].
  split; [eexists; split; [done|by rewrite Hf]|].
  rewrite Hc, Hh, run_body_erase_absent by done.
  repeat split; try done; try apply Hi.
  intros w s0 Hw Hl. destruct (execute_store w s0) as [-> _].
  rewrite Hw. by apply run_body_erase_absent.
Qed.

(** C7, amended: on the owning shard, with no mutation under way,
    [emplace] returns a future that becomes ready, after which [lookup]
    of the node gives a handle.  When the node had no entry, the handle
    is that of the transport the call has just built from its
    configuration; when it had one, the handle is the one it had, and
    the transport behind it is the one that was there, untouched.  The
    same holds whenever the body of an [emplace] runs. *)
Theorem emplace_then_lookup n c need_preempt (s : shard) :
  idle s → shard_for s n = cpu_id s →
  let r := emplace n c need_preempt s in
  let s' := settle r.1 in
  (∃ f, r.2 = returned (single f) ∧ future_status s' (single f) = ready) ∧
  is_Some (lookup n s') ∧
  (lookup n s = None → lookup_config n s' = Some c) ∧
  idle s' ∧
  (∀ w (s0 : shard), body w = emplace_body n c →
     is_Some (lookup n (execute w s0)) ∧
     (lookup n s0 = None → lookup_config n (execute w s0) = Some c)) ∧
  (lookup n s = None →
     lookup n s' = Some (length (heap s)) ∧
     transport_at s' (length (heap s)) = Some (Transport c 0)) ∧
  (∀ p, lookup n s = Some p →
     lookup n s' = Some p ∧
     ∀ t, transport_at s p = Some t → transport_at s' p = Some t) ∧
  (∀ w (s0 : shard) p, body w = emplace_body n c → lookup n s0 = Some p →
     lookup n (execute w s0) = Some p ∧
     ∀ t, transport_at s0 p = Some t → transport_at (execute w s0) p = Some t).
Proof.
  assert (Hbody : ∀ s0 s1 : shard,
            _cache (this s1) = _cache (this (run_body (emplace_body n c) s0)) →
            heap s1 = heap (run_body (emplace_body n c) s0) →
            is_Some (lookup n s1) ∧
            (lookup n s0 = None → lookup_config n s1 = Some c) ∧
            (lookup n s0 = None →
               lookup n s1 = Some (length (heap s0)) ∧
               transport_at s1 (length (heap s0)) = Some (Transport c 0)) ∧
            (∀ p, lookup n s0 = Some p →
               lookup n s1 = Some p ∧
               ∀ t, transport_at s0 p = Some t → transport_at s1 p = Some t)).
  { intros s0 s1 Hc Hh.
    assert (Hl' : ∀ m, lookup m s1 = lookup m (run_body (emplace_body n c) s0))
      by (intros m; unfold lookup; by rewrite Hc).
    assert (Ht' : ∀ p, transport_at s1 p
                       = transport_at (run_body (emplace_body n c) s0) p)
      by (intros p; unfold transport_at; by rewrite Hh).
    rewrite Hl'. destruct (lookup n s0) as [p|] eqn:Hl.
    - split; [|split; [done|split; [done|]]].
      + unfold lookup in *. erewrite run_body_emplace_present by done.
        by eexists.
      + intros p' [= <-]. rewrite Ht'. split.
        * unfold lookup in *. by erewrite run_body_emplace_present.
        * intros t Ht. by apply (run_body_heap (emplace_body n c)).
    - rewrite run_body_emplace_absent by done.
      split; [by eexists|]. split; [|split; [|done]].
      + intros _.
        apply (lookup_config_intro n _ (length (heap s0)) (Transport c 0)).
        * rewrite Hl'. by apply run_body_emplace_absent.
        * rewrite Ht'. apply run_body_heap_new.
      + intros _. split; [done|]. rewrite Ht'. apply run_body_heap_new. }
  intros Hidle Hown r s'. subst r s'. rewrite emplace_owning by done.
  destruct (with_semaphore_settled (emplace_body n c) need_preempt s Hidle)
    as (Hf & Hi & Hst & Hc & Hh & _). cbn [fst snd].
  split; [eexists; split; [done|by rewrite Hf]|].
  destruct (Hbody s _ Hc Hh) as (Hsome & Hcfg & Hnew & Hold).
  split; [done|]. split; [done|]. split; [done|]. split.
  { intros w s0 Hw. destruct (execute_store w s0) as [Hc0 Hh0].
    rewrite Hw in Hc0, Hh0.
    destruct (Hbody s0 _ Hc0 Hh0) as (? & ? & _). by split. }
  split; [done|]. split; [done|].
  intros w s0 p Hw Hl. destruct (execute_store w s0) as [Hc0 Hh0].
  rewrite Hw in Hc0, Hh0.
  destruct (Hbody s0 _ Hc0 Hh0) as (_ & _ & _ & Hold0). by apply Hold0.
Qed.

(** ** The frame of a mutation *)

(** A call of [with_semaphore] either leaves map and store as they are
    (the continuation waits or is scheduled) or runs the body on them. *)
Lemma with_semaphore_store nr b need_preempt (s : shard) :
  let s' := (with_semaphore nr b need_preempt s).1 in
  (_cache (this s') = _cache (this s) ∧ heap s' = heap s) ∨
  (_cache (this s') = _cache (this (run_body b s)) ∧
   heap s' = heap (run_body b s)).
Proof.
  unfold with_semaphore, make_future. cbv zeta.
  destruct (wait _ _) as [sem [|]]; [|by left].
  destruct need_preempt; [by left|right].
  cbn [fst]. destruct (execute_store (Waiter nr (length (futures s)) b)
    (log (with_sem (with_futures s (futures s ++ [FutureCell of_mutation pending]))
       sem) [acquired (length (futures s))])) as [-> ->].
  by destruct b.
Qed.

Lemma frame_refl m (s : shard) : frame m s s.
Proof. by split. Qed.

Lemma frame_run_body b m (s : shard) :
  target b ≠ m → frame m s (run_body b s).
Proof.
  intros Hne. split; [by apply run_body_other|].
  intros p t _ Ht. by apply run_body_heap.
Qed.

Lemma frame_store m (s s0 s' : shard) :
  _cache (this s') = _cache (this s0) → heap s' = heap s0 →
  frame m s s0 → frame m s s'.
Proof.
  unfold frame, lookup, transport_at. intros -> ->. done.
Qed.

Lemma frame_with_semaphore nr b need_preempt m (s : shard) :
  target b ≠ m → frame m s (with_semaphore nr b need_preempt s).1.
Proof.
  intros Hne.
  destruct (with_semaphore_store nr b need_preempt s) as [[Hc Hh]|[Hc Hh]].
  - eapply frame_store; [done..|apply frame_refl].
  - eapply frame_store; [done..|by apply frame_run_body].
Qed.

(** C9: a mutation about a node [n] leaves the entry of every other node
    [m] alone, at the call and when its body runs: [lookup m] gives what
    it gave, and the transport behind that handle is untouched. *)
Theorem mutation_frame n m c need_preempt (s : shard) :
  n ≠ m →
  frame m s (emplace n c need_preempt s).1 ∧
  frame m s (remove n need_preempt s).1 ∧
  (∀ w, target (body w) = n → frame m s (execute w s)).
Proof.
  intros Hne. split; [|split].
  - unfold rpc.emplace. case_bool_decide; [apply frame_refl|].
    pose proof (frame_with_semaphore 1 (emplace_body n c) need_preempt m s Hne).
    by destruct (with_semaphore _ _ _ _).
  - unfold rpc.remove. case_bool_decide; [apply frame_refl|].
    pose proof (frame_with_semaphore 1 (erase_body n) need_preempt m s Hne).
    by destruct (with_semaphore _ _ _ _).
  - intros w Hw. destruct (execute_store w s) as [Hc Hh].
    eapply frame_store; [done..|]. apply frame_run_body. by rewrite Hw.
Qed.

(** ** stop *)

Lemma iter_bump k (t : reconnect_transport (transport_configuration := transport_configuration)) :
  Nat.iter k bump t = Transport (config t) (k + stop_requests t).
Proof.
  induction k as [|k IH]; [by destruct t|].
  rewrite Nat.iter_succ, IH. done.
Qed.

Lemma parallel_for_each_cons {A} (x : A) range
    (func : A → shard → shard * nat) (s : shard) :
  parallel_for_each (x :: range) func s
  = ((parallel_for_each range func (func x s).1).1,
     (func x s).2 :: (parallel_for_each range func (func x s).1).2).
Proof.
  cbn [parallel_for_each]. destruct (func x s) as [s1 f]. cbn [fst snd].
  by destruct (parallel_for_each range func s1).
Qed.

(** What the fan-out of [stop] does to a shard: one new pending future
    per element, owned by the transport of the element; each transport
    has as many requests more as elements hold its handle; the registry
    and the scheduler are not touched. *)
Lemma parallel_for_each_stop (range : list (Z * nat)) (s : shard) :
  let r := parallel_for_each range (λ it, transport_stop it.2) s in
  this r.1 = this s ∧ run_queue r.1 = run_queue s ∧
  slot_log r.1 = slot_log s ∧
  futures r.1
  = futures s ++ ((λ it, FutureCell (of_transport it.2) pending) <$> range) ∧
  r.2 = seq (length (futures s)) (length range) ∧
  ∀ p, heap r.1 !! p
       = Nat.iter (requests_to p range) bump <$> heap s !! p.
Proof.
  revert s. induction range as [|[n q] range IH]; intros s; cbn zeta.
  - cbn. rewrite app_nil_r. repeat split; try done.
    intros p. by destruct (heap s !! p).
  - rewrite parallel_for_each_cons. cbn [snd].
    set (s1 := with_futures (with_heap s (alter bump q (heap s)))
                 (futures s ++ [FutureCell (of_transport q) pending])).
    change (transport_stop q s) with (s1, length (futures s)).
    cbn [fst snd].
    specialize (IH s1). cbv zeta in IH.
    destruct (parallel_for_each range _ s1) as [s2 fs].
    cbn [fst snd] in *.
    destruct IH as (Ht & Hq & Hl & Hf & Hfs & Hh).
    rewrite Ht, Hq, Hl, Hf, Hfs. subst s1. cbn.
    rewrite length_app, <-app_assoc. cbn.
    replace (length (futures s) + 1) with (S (length (futures s))) by lia.
    repeat split; try done.
    intros p. rewrite Hh. unfold requests_to.
    cbn [snd heap with_futures with_heap].
    case_decide as Hp.
    + subst q. rewrite list_lookup_alter_eq. cbn [length].
      destruct (heap s !! p) as [t|]; [|done].
      cbn [fmap option_fmap option_map]. f_equal.
      rewrite !iter_bump. cbn. by rewrite Nat.add_succ_r.
    + by rewrite list_lookup_alter_ne.
Qed.

Lemma stop_spec (s : shard) :
  let range := map_to_list (_cache (this s)) in
  let r := stop s in
  this r.1 = this s ∧ run_queue r.1 = run_queue s ∧
  slot_log r.1 = slot_log s ∧
  futures r.1
  = futures s ++ ((λ it, FutureCell (of_transport it.2) pending) <$> range) ∧
  r.2 = returned (for_each (seq (length (futures s)) (length range))) ∧
  ∀ p, heap r.1 !! p
       = Nat.iter (requests_to p range) bump <$> heap s !! p.
Proof.
  cbv zeta. unfold stop.
  pose proof (parallel_for_each_stop (map_to_list (_cache (this s))) s) as H.
  cbv zeta in H. destruct (parallel_for_each _ _ s) as [s' fs].
  cbn [fst snd] in *. destruct H as (? & ? & ? & ? & -> & ?). done.
Qed.

Lemma requests_to_perm p l1 l2 :
  l1 ≡ₚ l2 → requests_to p l1 = requests_to p l2.
Proof. unfold requests_to. by intros ->. Qed.

Lemma requests_to_none p (l : list (Z * nat)) :
  Forall (λ it, it.2 ≠ p) l → requests_to p l = 0.
Proof.
  unfold requests_to. induction 1 as [|it l Hit _ IH]; [done|].
  rewrite filter_cons. by case_decide.
Qed.

Lemma requests_to_some p (l : list (Z * nat)) n :
  (n, p) ∈ l → 0 < requests_to p l.
Proof.
  unfold requests_to. intros Hin.
  assert ((n, p) ∈ filter (λ it : Z * nat, it.2 = p) l) as Hf
    by (by apply list_elem_of_filter).
  destruct (filter _ l); [by apply elem_of_nil in Hf|simpl; lia].
Qed.

(** C2, amended: [stop] asks, it does not erase.  After [emplace] of a
    node without entry on the owning shard (no mutation under way, the
    handles of the map pointing into the store) and then [stop], the map
    is the one that [emplace] left, one entry larger than at the start,
    and the transport built from the configuration has received exactly
    one request to shut down. *)
Theorem emplace_then_stop n c need_preempt (s : shard) :
  idle s → shard_for s n = cpu_id s → lookup n s = None →
  allocated s = true →
  let s1 := settle (emplace n c need_preempt s).1 in
  let r := stop s1 in
  _cache (this r.1) = _cache (this s1) ∧
  size (_cache (this r.1)) = S (size (_cache (this s))) ∧
  ∃ p, lookup n r.1 = Some p ∧
       transport_at s1 p = Some (Transport c 0) ∧
       transport_at r.1 p = Some (Transport c 1).
Proof.
  intros Hidle Hown Habs Halloc s1 r.
  destruct (with_semaphore_settled (emplace_body n c) need_preempt s Hidle)
    as (_ & _ & _ & Hc & Hh & _).
  assert (Hs1 : s1 = settle (with_semaphore 1 (emplace_body n c) need_preempt s).1)
    by (subst s1; by rewrite emplace_owning).
  rewrite <-Hs1 in Hc, Hh. clearbody s1.
  assert (Hc1 : _cache (this s1) = <[n := length (heap s)]> (_cache (this s))).
  { rewrite Hc. unfold run_body, cache_emplace. cbn.
    unfold lookup in Habs. by rewrite Habs. }
  assert (Hh1 : heap s1 = heap s ++ [Transport c 0]) by (by rewrite Hh).
  destruct (stop_spec s1) as (Ht & _ & _ & _ & _ & Hheap).
  fold r in Ht, Hheap.
  assert (Hreq : requests_to (length (heap s)) (map_to_list (_cache (this s1)))
                 = 1).
  { rewrite Hc1.
    rewrite (requests_to_perm _ _ _ (map_to_list_insert _ _ _ Habs)).
    unfold requests_to. rewrite filter_cons. cbn.
    rewrite decide_True by done. cbn. f_equal.
    apply requests_to_none, Forall_forall. intros [m q] Hin Hq. cbn in Hq.
    subst q. unfold allocated in Halloc.
    rewrite forallb_forall in Halloc.
    apply list_elem_of_In, Halloc, Nat.ltb_lt in Hin. cbn in Hin. lia. }
  split; [by rewrite Ht|]. split.
  { rewrite Ht, Hc1. by apply map_size_insert_None. }
  exists (length (heap s)). unfold lookup, transport_at.
  rewrite Ht, Hc1, lookup_insert_eq, Hheap, Hreq, Hh1.
  rewrite lookup_app_r, Nat.sub_diag by lia. done.
Qed.

Lemma for_each_failed (s : shard) fs e :
  for_each_state s fs = failed e →
  Forall (λ f, cell_state s f ≠ pending) fs ∧
  Exists (λ f, cell_state s f = failed e) fs.
Proof.
  unfold for_each_state. cbv zeta.
  destruct (existsb is_pending (cell_state s <$> fs)) eqn:Hp; [done|].
  intros Hf. split.
  - apply Forall_forall. intros f Hin Hpend.
    apply not_true_iff_false in Hp. apply Hp, existsb_exists.
    exists pending. split; [|done].
    apply list_elem_of_In. rewrite <-Hpend. by apply list_elem_of_fmap_2.
  - destruct (filter _ _) as [|st l] eqn:Hfl; [done|]. subst st.
    assert (failed e ∈ filter (λ st, is_failed st = true) (cell_state s <$> fs))
      as Hin by (rewrite Hfl; left).
    apply list_elem_of_filter in Hin as [_ Hin].
    apply list_elem_of_fmap in Hin as (f & Hf & Hin).
    apply Exists_exists. by exists f.
Qed.

Lemma for_each_pending (s : shard) fs :
  Exists (λ f, cell_state s f = pending) fs →
  for_each_state s fs = pending.
Proof.
  intros (f & Hin & Hf)%Exists_exists. unfold for_each_state. cbv zeta.
  destruct (existsb _ _) eqn:Hp; [done|].
  apply not_true_iff_false in Hp. destruct Hp. apply existsb_exists.
  exists pending. split; [|done].
  apply list_elem_of_In. rewrite <-Hf. by apply list_elem_of_fmap_2.
Qed.

Lemma for_each_surfaces (s : shard) fs :
  Forall (λ f, cell_state s f ≠ pending) fs →
  Exists (λ f, is_failed (cell_state s f) = true) fs →
  ∃ e, for_each_state s fs = failed e.
Proof.
  intros Hall (f & Hin & Hf)%Exists_exists. unfold for_each_state. cbv zeta.
  destruct (existsb _ _) eqn:Hp.
  { apply existsb_exists in Hp as (st & Hst & Hpend).
    apply list_elem_of_In, list_elem_of_fmap in Hst as (g & -> & Hg).
    rewrite Forall_forall in Hall. destruct (cell_state s g) eqn:Hc; try done.
    by destruct (Hall g Hg). }
  assert (cell_state s f ∈ filter (λ st, is_failed st = true) (cell_state s <$> fs))
    as Hfl by (apply list_elem_of_filter; split; [done|by apply list_elem_of_fmap_2]).
  destruct (filter _ _) as [|st l] eqn:Heq; [by apply elem_of_nil in Hfl|].
  assert (st ∈ filter (λ st, is_failed st = true) (cell_state s <$> fs))
    as Hst by (rewrite Heq; left).
  apply list_elem_of_filter in Hst as [Hst _].
  destruct st as [| |e]; try done. by exists e.
Qed.

(** C5: [stop] asks every transport of the map to shut down, whatever
    the others answer, and returns the future of [parallel_for_each]
    over the futures of all these requests.  At any later time that
    future is pending as long as one shutdown is; when it has failed,
    every shutdown has finished and one of them failed with that error;
    and once all have finished with a failure among them, it has
    failed. *)
Theorem stop_waits_for_every_shutdown (s : shard) :
  let r := stop s in
  ∃ fs, r.2 = returned (for_each fs) ∧
    (∀ n p, lookup n s = Some p →
       (∃ f, f ∈ fs ∧
             futures r.1 !! f = Some (FutureCell (of_transport p) pending)) ∧
       (∀ t, transport_at s p = Some t →
          ∃ t', transport_at r.1 p = Some t' ∧
                stop_requests t < stop_requests t')) ∧
    ∀ evs, let s' := run placement evs r.1 in
      (Exists (λ f, cell_state s' f = pending) fs →
       future_status s' (for_each fs) = pending) ∧
      (∀ e, future_status s' (for_each fs) = failed e →
         Forall (λ f, cell_state s' f ≠ pending) fs ∧
         Exists (λ f, cell_state s' f = failed e) fs) ∧
      (Forall (λ f, cell_state s' f ≠ pending) fs →
       Exists (λ f, is_failed (cell_state s' f) = true) fs →
       ∃ e, future_status s' (for_each fs) = failed e).
Proof.
  intros r. destruct (stop_spec s) as (_ & _ & _ & Hf & Hr & Hh).
  fold r in Hf, Hr, Hh.
  exists (seq (length (futures s)) (length (map_to_list (_cache (this s))))).
  split; [done|]. split.
  - intros n p Hl. unfold lookup in Hl.
    apply elem_of_map_to_list in Hl as Hin.
    apply list_elem_of_lookup in Hin as [i Hi]. split.
    + exists (length (futures s) + i). split.
      * apply elem_of_seq. apply lookup_lt_Some in Hi. lia.
      * rewrite Hf, lookup_app_r by lia.
        replace (length (futures s) + i - length (futures s)) with i by lia.
        by rewrite list_lookup_fmap, Hi.
    + intros t Ht. unfold transport_at in *. rewrite Hh, Ht.
      eexists. split; [done|]. rewrite iter_bump. cbn.
      apply list_elem_of_lookup_2 in Hi.
      pose proof (requests_to_some _ _ _ Hi). lia.
  - intros evs s'. cbn [future_status]. split; [|split].
    + apply for_each_pending.
    + apply for_each_failed.
    + apply for_each_surfaces.
Qed.

(** ** Serialization of the mutations *)

Lemma slot_after_app st l1 l2 :
  slot_after st (l1 ++ l2) = st' ← slot_after st l1; slot_after st' l2.
Proof.
  revert st. induction l1 as [|e l1 IH]; intros st; [done|].
  cbn. destruct (slot_next st e) as [st1|]; [|done]. cbn. apply IH.
Qed.

Lemma slot_after_holders st l st' :
  slot_after st l = Some st' →
  ∀ p, p `prefix_of` l → (0 ≤ occupancy st + holders p ≤ 1)%Z.
Proof.
  revert st. induction l as [|e l IH]; intros st Hacc p Hp.
  - apply prefix_nil_inv in Hp as ->. destruct st; cbn; lia.
  - destruct p as [|e' p]; [destruct st; cbn; lia|].
    apply prefix_cons_inv_1 in Hp as He. subst e'.
    apply prefix_cons_inv_2 in Hp.
    cbn in Hacc. destruct (slot_next st e) as [st1|] eqn:Hn; [|done].
    cbn in Hacc. specialize (IH st1 Hacc p Hp).
    unfold holders in *. cbn [foldr].
    destruct st, e; cbn in Hn; try done; repeat case_decide; simplify_eq;
      cbn [occupancy] in *; lia.
Qed.

Lemma slot_after_order st l st' :
  slot_after st l = Some st' →
  awaiting st ++ acquisitions l = executions l ++ awaiting st'.
Proof.
  revert st. induction l as [|e l IH]; intros st Hacc.
  - cbn in Hacc. simplify_eq. cbn. by rewrite app_nil_r.
  - cbn in Hacc. destruct (slot_next st e) as [st1|] eqn:Hn; [|done].
    cbn in Hacc. specialize (IH st1 Hacc).
    unfold acquisitions, executions in *.
    destruct st, e; cbn in Hn; try done; repeat case_decide; simplify_eq;
      cbn in *; by rewrite <-?IH.
Qed.

Lemma run_body_rest b (s : shard) :
  _sem (this (run_body b s)) = _sem (this s) ∧
  run_queue (run_body b s) = run_queue s ∧
  slot_log (run_body b s) = slot_log s.
Proof. by destruct b. Qed.

Lemma wake_one (wl : list (waiter (transport_configuration := transport_configuration))) :
  Forall (λ w, units w = 1) wl →
  wake 1 wl = match wl with
              | [] => (1, [], [])
              | w :: wl' => (0, [w], wl')
              end.
Proof.
  destruct wl as [|w [|w' wl']]; [done|..]; intros Hall.
  - apply Forall_cons in Hall as [Hw _]. cbn. by rewrite Hw.
  - apply Forall_cons in Hall as [Hw Hall].
    apply Forall_cons in Hall as [Hw' _]. cbn. by rewrite Hw, Hw'.
Qed.

(** A continuation that holds the only unit runs: the slot goes to the
    first waiter, if any, and is free otherwise. *)
Lemma serial_execute w (s : shard) :
  run_queue s = [] → count (_sem (this s)) = 0 → units w = 1 →
  Forall (λ w', units w' = 1) (wait_list (_sem (this s))) →
  slot_after slot_free (slot_log s) = Some (slot_held (promise w)) →
  serial (execute w s).
Proof.
  intros Hq Hc Hu Hall Hlog. unfold execute. cbv zeta.
  destruct (run_body_rest (body w) s) as (Hsem & Hrq & Hlg).
  unfold signal. cbn [this log _sem].
  rewrite Hsem, Hu, Hc. cbn [Nat.add]. rewrite wake_one by done.
  unfold serial.
  destruct (wait_list (_sem (this s))) as [|w1 wl]; cbn; rewrite Hrq, Hq, Hlg; cbn.
  - split; [done|]. rewrite <-app_assoc, slot_after_app, Hlog. cbn.
    by repeat (rewrite decide_True by done; cbn).
  - apply Forall_cons in Hall as [Hw1 Hall].
    repeat split; try done.
    rewrite <-app_assoc, slot_after_app, Hlog. cbn.
    by repeat (rewrite decide_True by done; cbn).
Qed.

Lemma serial_with_semaphore b need_preempt (s : shard) :
  serial s → serial (with_semaphore 1 b need_preempt s).1.
Proof.
  unfold serial at 1. intros Hs.
  unfold with_semaphore, make_future, wait, may_proceed. cbv zeta.
  destruct (run_queue s) as [|w0 [|w1 rq]] eqn:Hq; [| |done].
  - destruct Hs as [Hsem Hlog]. cbn [this with_futures _sem units].
    rewrite Hsem. cbn [count wait_list Nat.leb]. rewrite bool_decide_eq_true_2 by done.
    cbn [andb fst]. destruct need_preempt; cbn [fst].
    + unfold serial. cbn. rewrite Hq. cbn. repeat split; try done.
      rewrite slot_after_app, Hlog. done.
    + apply serial_execute; cbn; try done.
      rewrite slot_after_app, Hlog. done.
  - destruct Hs as (Hc & Hu & Hall & Hlog). cbn [this with_futures _sem units].
    rewrite Hc. cbn [Nat.leb andb fst]. unfold serial. cbn. rewrite Hq.
    repeat split; try done. apply Forall_app. split; [done|].
    by apply Forall_singleton.
Qed.

Lemma serial_run_task (s : shard) : serial s → serial (run_task s).
Proof.
  intros Hs. unfold run_task. unfold serial in Hs.
  destruct (run_queue s) as [|w [|w1 rq]] eqn:Hq;
    [by unfold serial; rewrite Hq| |done].
  destruct Hs as (Hc & Hu & Hall & Hlog). by apply serial_execute.
Qed.

Lemma serial_step e (s : shard) : serial s → serial (step placement e s).
Proof.
  intros Hs. destruct e as [n c q|n q| | |f r]; cbn [step].
  - unfold rpc.emplace. case_bool_decide; [done|].
    pose proof (serial_with_semaphore (emplace_body n c) q s Hs).
    by destruct (with_semaphore _ _ _ _).
  - unfold rpc.remove. case_bool_decide; [done|].
    pose proof (serial_with_semaphore (erase_body n) q s Hs).
    by destruct (with_semaphore _ _ _ _).
  - destruct (stop_spec s) as (Ht & Hq & Hl & _).
    unfold serial in *. by rewrite Ht, Hq, Hl.
  - by apply serial_run_task.
  - unfold transport_stopped.
    destruct (futures s !! f) as [[[|p] [| |]]|]; done.
Qed.

Lemma serial_run evs (s : shard) : serial s → serial (run placement evs s).
Proof.
  revert s. induction evs as [|e evs IH]; intros s Hs; [done|].
  cbn. apply IH. by apply serial_step.
Qed.

(** ** What holds of every shard that a run can reach *)

Lemma allocated_spec (s : shard) :
  allocated s = true ↔ ∀ n p, lookup n s = Some p → p < length (heap s).
Proof.
  unfold allocated, lookup. rewrite forallb_forall. split.
  - intros H n p Hl. apply elem_of_map_to_list, list_elem_of_In, H in Hl.
    by apply Nat.ltb_lt in Hl.
  - intros H [n p] Hin. apply Nat.ltb_lt, (H n).
    by apply elem_of_map_to_list, list_elem_of_In.
Qed.

Lemma allocated_store (s s' : shard) :
  _cache (this s') = _cache (this s) → heap s' = heap s →
  allocated s = true → allocated s' = true.
Proof. unfold allocated. by intros -> ->. Qed.

Lemma allocated_run_body b (s : shard) :
  allocated s = true → allocated (run_body b s) = true.
Proof.
  rewrite !allocated_spec. intros H n p.
  destruct b as [m c|m]; unfold lookup, run_body, cache_emplace, cache_erase;
    cbn.
  - rewrite length_app. cbn. destruct (_cache (this s) !! m) eqn:Hm.
    + intros Hl. apply H in Hl. lia.
    + destruct (decide (m = n)) as [->|Hne].
      * rewrite lookup_insert_eq. intros [= <-]. lia.
      * rewrite lookup_insert_ne by done. intros Hl. apply H in Hl. lia.
  - intros Hl. apply lookup_delete_Some in Hl as [_ Hl]. by apply H in Hl.
Qed.

Lemma allocated_step e (s : shard) :
  allocated s = true → allocated (step placement e s) = true.
Proof.
  intros Hs.
  assert (Hsem : ∀ b q, allocated (with_semaphore 1 b q s).1 = true).
  { intros b q. destruct (with_semaphore_store 1 b q s) as [[Hc Hh]|[Hc Hh]].
    - by apply (allocated_store s).
    - apply (allocated_store (run_body b s)); [done..|].
      by apply allocated_run_body. }
  destruct e as [n c q|n q| | |f r]; cbn [step].
  - unfold rpc.emplace. case_bool_decide; [done|].
    specialize (Hsem (emplace_body n c) q). by destruct (with_semaphore _ _ _ _).
  - unfold rpc.remove. case_bool_decide; [done|].
    specialize (Hsem (erase_body n) q). by destruct (with_semaphore _ _ _ _).
  - destruct (stop_spec s) as (Ht & _ & _ & _ & _ & Hh).
    apply allocated_spec. intros n p Hl. unfold lookup in Hl.
    rewrite Ht in Hl. apply (proj1 (allocated_spec s) Hs) in Hl.
    apply lookup_lt_is_Some. rewrite Hh.
    apply lookup_lt_is_Some in Hl as [t ->]. by eexists.
  - unfold run_task. destruct (run_queue s) as [|w q]; [done|].
    destruct (execute_store w (with_run_queue s q)) as [Hc Hh].
    apply (allocated_store (run_body (body w) (with_run_queue s q)));
      [done..|].
    by apply allocated_run_body.
  - unfold transport_stopped.
    destruct (futures s !! f) as [[[|p] [| |]]|]; done.
Qed.

(** Every handle of a map that a run has built points into the store. *)
Lemma allocated_run cpu smp evs :
  allocated (run placement evs (fresh cpu smp) : shard) = true.
Proof.
  assert (H : ∀ s : shard, allocated s = true →
                allocated (run placement evs s) = true).
  { induction evs as [|e evs IH]; intros s Hs; [done|].
    cbn. apply IH. by apply allocated_step. }
  by apply H.
Qed.

(** The registry of a run comes to rest: when the scheduler has run the
    tasks that are left, no mutation holds the units or waits. *)
Lemma serial_settle (s : shard) : serial s → idle (settle s).
Proof.
  unfold settle.
  remember (length (run_queue s) + length (wait_list (_sem (this s)))) as k
    eqn:Hk.
  revert s Hk. induction k as [|k IH]; intros s Hk Hs.
  - unfold serial in Hs. cbn.
    destruct (run_queue s) as [|w [|w1 q]] eqn:Hq; [|done..].
    destruct Hs as [Hsem _]. by split.
  - rewrite Nat.iter_succ_r. apply IH; [|by apply serial_run_task].
    unfold serial in Hs. unfold run_task.
    destruct (run_queue s) as [|w [|w1 q]] eqn:Hq; [| |done].
    { destruct Hs as [Hsem _]. rewrite Hsem in Hk. done. }
    destruct Hs as (Hc & Hu & Hall & _). cbn in Hk.
    unfold execute. cbv zeta.
    destruct (run_body_rest (body w) (with_run_queue s [])) as (Hsem & Hrq & _).
    unfold signal. cbn [this log _sem].
    rewrite Hsem, Hu. cbn [this with_run_queue _sem]. rewrite Hc.
    cbn [Nat.add]. rewrite wake_one by done.
    destruct (wait_list (_sem (this s))) as [|w1 wl]; cbn; rewrite Hrq; cbn;
      cbn in Hk; lia.
Qed.

Lemma run_comes_to_rest cpu smp evs :
  idle (settle (run placement evs (fresh cpu smp) : shard)).
Proof. by apply serial_settle, serial_run. Qed.

(** ** The handles of the map *)

Lemma distinct_store (s s' : shard) :
  _cache (this s') = _cache (this s) →
  distinct_handles s → distinct_handles s'.
Proof. unfold distinct_handles, lookup. by intros ->. Qed.

Lemma distinct_run_body b (s : shard) :
  allocated s = true → distinct_handles s → distinct_handles (run_body b s).
Proof.
  intros Ha Hd. pose proof (proj1 (allocated_spec s) Ha) as Hlt.
  unfold distinct_handles, lookup in *.
  destruct b as [m c|m]; unfold run_body, cache_emplace, cache_erase; cbn.
  - destruct (_cache (this s) !! m) eqn:Hm; [done|].
    intros n1 n2 p.
    destruct (decide (m = n1)) as [<-|H1], (decide (m = n2)) as [<-|H2];
      rewrite ?lookup_insert_eq, ?lookup_insert_ne by done.
    + done.
    + intros [= <-] Hl. apply Hlt in Hl. lia.
    + intros Hl [= <-]. apply Hlt in Hl. lia.
    + apply Hd.
  - intros n1 n2 p [_ H1]%lookup_delete_Some [_ H2]%lookup_delete_Some.
    by eapply Hd.
Qed.

Lemma distinct_step e (s : shard) :
  allocated s = true → distinct_handles s →
  distinct_handles (step placement e s).
Proof.
  intros Ha Hd.
  assert (Hsem : ∀ b q, distinct_handles (with_semaphore 1 b q s).1).
  { intros b q. destruct (with_semaphore_store 1 b q s) as [[Hc Hh]|[Hc Hh]].
    - by apply (distinct_store s).
    - apply (distinct_store (run_body b s)); [done|].
      by apply distinct_run_body. }
  destruct e as [n c q|n q| | |f r]; cbn [step].
  - unfold rpc.emplace. case_bool_decide; [done|].
    specialize (Hsem (emplace_body n c) q). by destruct (with_semaphore _ _ _ _).
  - unfold rpc.remove. case_bool_decide; [done|].
    specialize (Hsem (erase_body n) q). by destruct (with_semaphore _ _ _ _).
  - destruct (stop_spec s) as (Ht & _). apply (distinct_store s); [|done].
    by rewrite Ht.
  - unfold run_task. destruct (run_queue s) as [|w q] eqn:Hq; [done|].
    destruct (execute_store w (with_run_queue s q)) as [Hc Hh].
    apply (distinct_store (run_body (body w) (with_run_queue s q))); [done|].
    by apply distinct_run_body.
  - unfold transport_stopped.
    destruct (futures s !! f) as [[[|p] [| |]]|]; done.
Qed.

Lemma distinct_run cpu smp evs :
  distinct_handles (run placement evs (fresh cpu smp) : shard).
Proof.
  assert (H : ∀ s : shard, allocated s = true → distinct_handles s →
                distinct_handles (run placement evs s)).
  { induction evs as [|e evs IH]; intros s Ha Hd; [done|].
    cbn. apply IH; [by apply allocated_step|by apply distinct_step]. }
  apply H; [done|]. intros n1 n2 p Hl. unfold lookup in Hl. cbn in Hl.
  by rewrite lookup_empty in Hl.
Qed.

(** X1: in every state that a run reaches, [lookup] only gives handles
    of transports that are in the store, and no two nodes have the same
    transport. *)
Theorem every_node_its_own_transport cpu smp evs :
  let s : shard := run placement evs (fresh cpu smp) in
  (∀ n p, lookup n s = Some p → is_Some (transport_at s p)) ∧
  (∀ n1 n2 p, lookup n1 s = Some p → lookup n2 s = Some p → n1 = n2).
Proof.
  intros s. split.
  - intros n p Hl. apply lookup_lt_is_Some.
    by apply (proj1 (allocated_spec s) (allocated_run cpu smp evs) n).
  - apply distinct_run.
Qed.

(** ** Who is asked to shut down *)

Lemma requests_to_once p (l : list (Z * nat)) n :
  NoDup l.*2 → (n, p) ∈ l → requests_to p l = 1.
Proof.
  unfold requests_to. induction l as [|[n' p'] l IH]; intros Hnd Hin.
  - by apply elem_of_nil in Hin.
  - cbn in Hnd. apply NoDup_cons in Hnd as [Hp' Hnd].
    rewrite filter_cons. cbn [snd]. case_decide as Hp.
    + subst p'. cbn [length]. f_equal.
      apply (requests_to_none p l), Forall_forall. intros [m q] Hm Hq.
      cbn in Hq. subst q. apply Hp'.
      apply list_elem_of_fmap. by exists (m, p).
    + apply IH; [done|]. apply elem_of_cons in Hin as [[= _ ?]|Hin]; done.
Qed.

Lemma requests_to_map p (s : shard) :
  distinct_handles s →
  ((∃ n, lookup n s = Some p) →
   requests_to p (map_to_list (_cache (this s))) = 1) ∧
  ((∀ n, lookup n s ≠ Some p) →
   requests_to p (map_to_list (_cache (this s))) = 0).
Proof.
  intros Hd. split.
  - intros [n Hn]. apply (requests_to_once p _ n).
    + apply NoDup_fmap_2_strong; [|apply NoDup_map_to_list].
      intros [n1 p1] [n2 p2] H1%elem_of_map_to_list H2%elem_of_map_to_list Heq.
      cbn in Heq. subst p2. f_equal. by apply (Hd n1 n2 p1).
    + by apply elem_of_map_to_list.
  - intros Hno. apply requests_to_none, Forall_forall.
    intros [m q] Hm%elem_of_map_to_list Hq. cbn in Hq. subst q.
    by apply (Hno m).
Qed.

Lemma stop_heap_length (s : shard) : length (heap (stop s).1) = length (heap s).
Proof.
  destruct (stop_spec s) as (_ & _ & _ & _ & _ & Hh).
  set (range := map_to_list (_cache (this s))) in *.
  assert (heap (stop s).1
          = (λ pt, Nat.iter (requests_to pt.1 range) bump pt.2) <$> imap pair (heap s))
    as ->.
  { apply list_eq. intros p. rewrite Hh, list_lookup_fmap, list_lookup_imap.
    by destruct (heap s !! p). }
  by rewrite length_fmap, length_imap.
Qed.

(** The fan-out of [stop] on a shard whose nodes have each their own
    transport: the registry and the scheduler are as they were, there
    is one future per entry, every transport of the map has one request
    more, every other transport is as it was. *)
Lemma stop_exact (s : shard) :
  distinct_handles s →
  let r := stop s in
  this r.1 = this s ∧ run_queue r.1 = run_queue s ∧
  (∃ fs, r.2 = returned (for_each fs) ∧ length fs = size (_cache (this s))) ∧
  ∀ p t, transport_at s p = Some t →
    ((∃ n, lookup n s = Some p) → transport_at r.1 p = Some (bump t)) ∧
    ((∀ n, lookup n s ≠ Some p) → transport_at r.1 p = Some t).
Proof.
  intros Hd r. destruct (stop_spec s) as (Ht & Hq & _ & _ & Hr & Hh).
  fold r in Ht, Hq, Hr, Hh. split; [done|]. split; [done|]. split.
  { eexists. split; [done|]. by rewrite length_seq, length_map_to_list. }
  intros p t Hp. unfold transport_at in *.
  destruct (requests_to_map p s Hd) as [H1 H0].
  split; intros Hin; rewrite Hh, Hp; cbn.
  - by rewrite (H1 Hin).
  - by rewrite (H0 Hin).
Qed.

(** X2: in every state that a run reaches, [stop] asks each transport
    of the map to shut down exactly once and no other transport; it
    returns the future over one future per entry, and it touches
    neither the map nor the semaphore nor the scheduled mutations. *)
Theorem stop_asks_each_entry_once cpu smp evs :
  let s : shard := run placement evs (fresh cpu smp) in
  let r := stop s in
  this r.1 = this s ∧ run_queue r.1 = run_queue s ∧
  (∃ fs, r.2 = returned (for_each fs) ∧ length fs = size (_cache (this s))) ∧
  ∀ p t, transport_at s p = Some t →
    ((∃ n, lookup n s = Some p) →
     transport_at r.1 p = Some (Transport (config t) (S (stop_requests t)))) ∧
    ((∀ n, lookup n s ≠ Some p) → transport_at r.1 p = Some t).
Proof. intros s. apply stop_exact, distinct_run. Qed.

(** X3: [stop] is not idempotent.  The map keeps its entries, so in
    every state that a run reaches a second [stop] asks every transport
    of the map again: two calls leave two requests more. *)
Theorem stop_twice_asks_twice cpu smp evs n p t :
  let s : shard := run placement evs (fresh cpu smp) in
  lookup n s = Some p → transport_at s p = Some t →
  transport_at (stop (stop s).1).1 p
  = Some (Transport (config t) (S (S (stop_requests t)))).
Proof.
  intros s Hl Ht.
  assert (Hd : distinct_handles s) by apply distinct_run.
  destruct (stop_exact s Hd) as (Hthis & _ & _ & H1).
  destruct (H1 p t Ht) as [H1p _].
  assert (Hd' : distinct_handles (stop s).1)
    by (apply (distinct_store s); [by rewrite Hthis|done]).
  destruct (stop_exact _ Hd') as (_ & _ & _ & H2).
  destruct (H2 p (bump t) (H1p (ex_intro _ n Hl))) as [H2p _].
  apply H2p. exists n. unfold lookup in *. by rewrite Hthis.
Qed.

(** X4: only [stop] asks a transport of the map to shut down.  After a
    call of [emplace] or [remove], a task of the scheduler or the answer
    of a transport, every transport that the map still refers to is as
    it was before: same configuration, same number of requests. *)
Theorem only_stop_asks e (s : shard) m p t :
  e ≠ call_stop →
  lookup m (step placement e s) = Some p → transport_at s p = Some t →
  transport_at (step placement e s) p = Some t.
Proof.
  intros He _ Ht.
  assert (Hsem : ∀ b q, transport_at (with_semaphore 1 b q s).1 p = Some t).
  { intros b q. unfold transport_at.
    destruct (with_semaphore_store 1 b q s) as [[_ Hh]|[_ Hh]]; rewrite Hh;
      [done|by apply run_body_heap]. }
  destruct e as [n c q|n q| | |f r]; cbn [step]; [| |done| |].
  - unfold rpc.emplace. case_bool_decide; [done|].
    specialize (Hsem (emplace_body n c) q). by destruct (with_semaphore _ _ _ _).
  - unfold rpc.remove. case_bool_decide; [done|].
    specialize (Hsem (erase_body n) q). by destruct (with_semaphore _ _ _ _).
  - unfold run_task. destruct (run_queue s) as [|w q] eqn:Hq; [done|].
    destruct (execute_store w (with_run_queue s q)) as [_ Hh].
    unfold transport_at. rewrite Hh.
    by apply (run_body_heap (body w) (with_run_queue s q)).
  - unfold transport_stopped.
    destruct (futures s !! f) as [[[|h] [| |]]|]; done.
Qed.

(** ** The shape of a step *)

Lemma wake_split cnt
    (wl : list (waiter (transport_configuration := transport_configuration))) :
  (wake cnt wl).1.2 ++ (wake cnt wl).2 = wl.
Proof.
  revert cnt. induction wl as [|w wl IH]; intros cnt; [done|].
  cbn. destruct (units w <=? cnt); [|done].
  specialize (IH (cnt - units w)).
  destruct (wake (cnt - units w) wl) as [[c woken] rest]. cbn in *.
  by rewrite IH.
Qed.

Lemma run_body_engine b (s : shard) :
  futures (run_body b s) = futures s ∧
  cpu_id (run_body b s) = cpu_id s ∧ smp_count (run_body b s) = smp_count s.
Proof. by destruct b. Qed.

(** A continuation that runs leaves the queue of the others as it is
    (the units pass to the first that waits) and makes its own future
    ready. *)
Lemma execute_shape w (s : shard) :
  queue (execute w s) = queue s ∧
  futures (execute w s) = alter (set_state ready) (promise w) (futures s) ∧
  cpu_id (execute w s) = cpu_id s ∧ smp_count (execute w s) = smp_count s.
Proof.
  unfold execute, signal, queue. cbv zeta.
  destruct (run_body_rest (body w) s) as (Hsem & Hrq & _).
  destruct (run_body_engine (body w) s) as (Hf & Hcpu & Hsmp).
  cbn [this log _sem]. rewrite Hsem.
  pose proof (wake_split (count (_sem (this s)) + units w)
                (wait_list (_sem (this s)))) as Hw.
  destruct (wake _ _) as [[cnt woken] rest]. cbn in Hw |- *.
  rewrite Hrq, Hf, Hcpu, Hsmp, <-app_assoc, Hw. done.
Qed.

(** A call of [with_semaphore] either appends its continuation to the
    queue and leaves map and store alone, or runs its body at once. *)
Lemma with_semaphore_shape nr b need_preempt (s : shard) :
  let s' := (with_semaphore nr b need_preempt s).1 in
  let f := length (futures s) in
  (with_semaphore nr b need_preempt s).2 = f ∧
  cpu_id s' = cpu_id s ∧ smp_count s' = smp_count s ∧
  ((queue s' = queue s ++ [Waiter nr f b] ∧
    futures s' = futures s ++ [FutureCell of_mutation pending] ∧
    _cache (this s') = _cache (this s) ∧ heap s' = heap s) ∨
   (may_proceed nr (_sem (this s)) = true ∧
    queue s' = queue s ∧
    futures s' = alter (set_state ready) f
                   (futures s ++ [FutureCell of_mutation pending]) ∧
    _cache (this s') = _cache (this (run_body b s)) ∧
    heap s' = heap (run_body b s))).
Proof.
  unfold with_semaphore, make_future, wait, may_proceed. cbv zeta.
  cbn [this with_futures _sem units].
  destruct (nr <=? count (_sem (this s))); cbn [andb];
    [case_bool_decide as Hwl|]; cbn [fst snd].
  - destruct need_preempt; cbn [fst snd].
    + split; [done|]. split; [done|]. split; [done|]. left.
      unfold queue. cbn. rewrite Hwl, !app_nil_r. done.
    + set (s3 := log _ _). set (w := Waiter _ _ _).
      destruct (execute_shape w s3) as (Hq & Hf & Hcpu & Hsmp).
      destruct (execute_store w s3) as [Hc Hh].
      split; [done|]. split; [by rewrite Hcpu|]. split; [by rewrite Hsmp|].
      right. rewrite Hq, Hf, Hc, Hh. subst s3 w. unfold queue. cbn.
      by destruct b.
  - split; [done|]. split; [done|]. split; [done|]. left.
    unfold queue. cbn. by rewrite app_assoc.
  - split; [done|]. split; [done|]. split; [done|]. left.
    unfold queue. cbn. by rewrite app_assoc.
Qed.

Lemma run_task_shape w q (s : shard) :
  run_queue s = w :: q →
  queue (run_task s) = q ++ wait_list (_sem (this s)) ∧
  futures (run_task s) = alter (set_state ready) (promise w) (futures s) ∧
  cpu_id (run_task s) = cpu_id s ∧ smp_count (run_task s) = smp_count s ∧
  _cache (this (run_task s)) = _cache (this (run_body (body w) s)) ∧
  heap (run_task s) = heap (run_body (body w) s).
Proof.
  intros Hq. unfold run_task. rewrite Hq.
  destruct (execute_shape w (with_run_queue s q)) as (Hqq & Hf & Hcpu & Hsmp).
  destruct (execute_store w (with_run_queue s q)) as [Hc Hh].
  rewrite Hqq, Hf, Hcpu, Hsmp, Hc, Hh. by destruct (body w).
Qed.

(** ** Entries and owners *)

Lemma owned_run_body w (s s' : shard) :
  cpu_id s' = cpu_id s → smp_count s' = smp_count s →
  _cache (this s') = _cache (this (run_body (body w) s)) →
  shard_for s (target (body w)) = cpu_id s →
  (∀ n, is_Some (lookup n s) → shard_for s n = cpu_id s) →
  (∀ n, is_Some (lookup n s') → shard_for s' n = cpu_id s').
Proof.
  unfold rpc.shard_for, lookup. intros -> -> -> Hw Hs n.
  destruct (decide (target (body w) = n)) as [<-|Hne]; [done|].
  pose proof (run_body_other (body w) n s Hne) as Ho. unfold lookup in Ho.
  rewrite Ho. apply Hs.
Qed.

Lemma owned_step e (s : shard) : owned s → owned (step placement e s).
Proof.
  intros [Hm Hq].
  assert (Hsem : ∀ b q, shard_for s (target b) = cpu_id s →
                        owned (with_semaphore 1 b q s).1).
  { intros b q Hb.
    destruct (with_semaphore_shape 1 b q s)
      as (_ & Hcpu & Hsmp & [(Hqq & _ & Hc & _)|(_ & Hqq & _ & Hc & _)]).
    - split.
      + intros n. unfold rpc.shard_for, lookup. rewrite Hc, Hcpu, Hsmp.
        apply Hm.
      + rewrite Hqq. unfold rpc.shard_for. rewrite Hcpu, Hsmp.
        apply Forall_app. split; [exact Hq|]. apply Forall_singleton.
        exact Hb.
    - split.
      + by apply (owned_run_body (Waiter 1 0 b) s).
      + rewrite Hqq. unfold rpc.shard_for. rewrite Hcpu, Hsmp. exact Hq. }
  destruct e as [n c q|n q| | |f r]; cbn [step].
  - unfold rpc.emplace. case_bool_decide as Hn; [done|].
    specialize (Hsem (emplace_body n c) q Hn). by destruct (with_semaphore _ _ _ _).
  - unfold rpc.remove. case_bool_decide as Hn; [done|].
    specialize (Hsem (erase_body n) q Hn). by destruct (with_semaphore _ _ _ _).
  - destruct (stop_spec s) as (Ht & Hrq & _).
    assert (Heng : cpu_id (stop s).1 = cpu_id s ∧ smp_count (stop s).1 = smp_count s).
    { unfold stop.
      assert (∀ l (s0 : shard),
                cpu_id (parallel_for_each l (λ it : Z * nat, transport_stop it.2) s0).1
                = cpu_id s0 ∧
                smp_count (parallel_for_each l (λ it : Z * nat, transport_stop it.2) s0).1
                = smp_count s0) as Hpfe.
      { induction l as [|x l IH]; intros s0; [done|].
        rewrite parallel_for_each_cons. cbn [fst].
        destruct (IH (transport_stop x.2 s0).1) as [-> ->]. done. }
      specialize (Hpfe (map_to_list (_cache (this s))) s).
      by destruct (parallel_for_each _ _ s). }
    destruct Heng as [Hcpu Hsmp]. split.
    + intros n. unfold rpc.shard_for, lookup. rewrite Ht, Hcpu, Hsmp. apply Hm.
    + unfold queue, rpc.shard_for. rewrite Ht, Hrq, Hcpu, Hsmp. exact Hq.
  - destruct (run_queue s) as [|w q] eqn:Hrq.
    { unfold run_task. by rewrite Hrq. }
    destruct (run_task_shape w q s Hrq) as (Hqq & _ & Hcpu & Hsmp & Hc & _).
    unfold queue in Hq. rewrite Hrq in Hq. cbn in Hq.
    apply Forall_cons in Hq as [Hw Hq]. split.
    + by apply (owned_run_body w s).
    + rewrite Hqq. unfold rpc.shard_for. rewrite Hcpu, Hsmp. exact Hq.
  - unfold transport_stopped.
    destruct (futures s !! f) as [[[|h] [| |]]|]; done.
Qed.

(** X5: the map of a shard only holds nodes that the shard owns: in
    every state that a run reaches, a node with an entry is a node that
    [shard_for] gives to this shard. *)
Theorem entries_are_owned cpu smp evs n :
  let s : shard := run placement evs (fresh cpu smp) in
  is_Some (lookup n s) → shard_for s n = cpu_id s.
Proof.
  intros s.
  assert (H : ∀ s0 : shard, owned s0 → owned (run placement evs s0)).
  { induction evs as [|e evs IH]; intros s0 Hs; [done|].
    cbn. apply IH. by apply owned_step. }
  apply H. split; [|by apply Forall_nil].
  intros m [p Hp]. unfold lookup in Hp. cbn in Hp. by rewrite lookup_empty in Hp.
Qed.

(** ** Mutations take effect in the order of the calls *)

Lemma view_store b (s s' : shard) :
  _cache (this s') = _cache (this (run_body b s)) →
  heap s' = heap (run_body b s) →
  view s' = apply_body b (view s).
Proof.
  unfold view. intros -> ->. destruct b as [n c|n]; cbn.
  - by rewrite fmap_app, length_fmap.
  - done.
Qed.

Lemma view_run_bodies bs (s : shard) :
  view (run_bodies bs s) = apply_bodies bs (view s).
Proof.
  revert s. induction bs as [|b bs IH]; intros s; [done|].
  change (view (run_bodies bs (run_body b s))
          = apply_bodies bs (apply_body b (view s))).
  rewrite IH. f_equal. by apply view_store.
Qed.

Lemma lookup_view n (s s' : shard) :
  view s = view s' →
  lookup n s = lookup n s' ∧ lookup_config n s = lookup_config n s'.
Proof.
  unfold view, lookup_config, lookup, transport_at. intros [= Hc Hh].
  rewrite Hc. split; [done|].
  destruct (_cache (this s') !! n) as [p|]; [|done]. cbn.
  apply (f_equal (λ l, l !! p)) in Hh. rewrite !list_lookup_fmap in Hh.
  destruct (heap s !! p), (heap s' !! p); simplify_eq/=; [|done].
  by rewrite Hh.
Qed.

Lemma step_engine e (s : shard) :
  cpu_id (step placement e s) = cpu_id s ∧
  smp_count (step placement e s) = smp_count s.
Proof.
  destruct e as [n c q|n q| | |f r]; cbn [step].
  - unfold rpc.emplace. case_bool_decide; [done|].
    destruct (with_semaphore_shape 1 (emplace_body n c) q s) as (_ & ? & ? & _).
    by destruct (with_semaphore _ _ _ _).
  - unfold rpc.remove. case_bool_decide; [done|].
    destruct (with_semaphore_shape 1 (erase_body n) q s) as (_ & ? & ? & _).
    by destruct (with_semaphore _ _ _ _).
  - unfold stop.
    assert (∀ l (s0 : shard),
              cpu_id (parallel_for_each l (λ it : Z * nat, transport_stop it.2) s0).1
              = cpu_id s0 ∧
              smp_count (parallel_for_each l (λ it : Z * nat, transport_stop it.2) s0).1
              = smp_count s0) as Hpfe.
    { induction l as [|x l IH]; intros s0; [done|].
      rewrite parallel_for_each_cons. cbn [fst].
      destruct (IH (transport_stop x.2 s0).1) as [-> ->]. done. }
    specialize (Hpfe (map_to_list (_cache (this s))) s).
    by destruct (parallel_for_each _ _ s).
  - destruct (run_queue s) as [|w q] eqn:Hrq.
    { unfold run_task. by rewrite Hrq. }
    by destruct (run_task_shape w q s Hrq) as (_ & _ & ? & ? & _).
  - unfold transport_stopped.
    destruct (futures s !! f) as [[[|h] [| |]]|]; done.
Qed.

Lemma accepted_engine (s s' : shard) evs :
  cpu_id s' = cpu_id s → smp_count s' = smp_count s →
  accepted s' evs = accepted s evs.
Proof. unfold accepted, rpc.shard_for. by intros -> ->. Qed.

(** What the map and the store will be once the continuations of the
    queue have run is not changed by a task; a call that passes the test
    of the shard adds the effect of its body at the end. *)
Lemma outlook_run_task (s : shard) :
  apply_bodies (backlog (run_task s)) (view (run_task s))
  = apply_bodies (backlog s) (view s).
Proof.
  destruct (run_queue s) as [|w q] eqn:Hrq.
  { unfold run_task. by rewrite Hrq. }
  destruct (run_task_shape w q s Hrq) as (Hq & _ & _ & _ & Hc & Hh).
  unfold backlog. rewrite Hq. unfold queue. rewrite Hrq. cbn.
  by rewrite (view_store (body w) s (run_task s) Hc Hh).
Qed.

Lemma outlook_with_semaphore b need_preempt (s : shard) :
  serial s →
  let s' := (with_semaphore 1 b need_preempt s).1 in
  apply_bodies (backlog s') (view s')
  = apply_body b (apply_bodies (backlog s) (view s)).
Proof.
  intros Hs s'.
  destruct (with_semaphore_shape 1 b need_preempt s)
    as (_ & _ & _ & [(Hq & _ & Hc & Hh)|(Hmay & Hq & _ & Hc & Hh)]);
    fold s' in Hq, Hc, Hh; unfold backlog; rewrite Hq.
  - rewrite fmap_app. unfold apply_bodies. rewrite foldl_app. cbn.
    unfold view. by rewrite Hc, Hh.
  - assert (queue s = []) as ->.
    { unfold serial in Hs. unfold queue.
      destruct (run_queue s) as [|w0 [|w1 rq]]; [| |done].
      - destruct Hs as [-> _]. done.
      - destruct Hs as (Hcnt & _). unfold may_proceed in Hmay.
        rewrite Hcnt in Hmay. done. }
    cbn. by apply view_store.
Qed.

Lemma outlook_step e (s : shard) :
  serial s →
  apply_bodies (backlog (step placement e s)) (view (step placement e s))
  = apply_bodies (backlog s ++ accepted s [e]) (view s).
Proof.
  intros Hs. unfold apply_bodies at 2. rewrite foldl_app.
  fold (apply_bodies (backlog s) (view s)).
  destruct e as [n c q|n q| | |f r]; cbn [step accepted omap list_omap].
  - unfold rpc.emplace. case_bool_decide as Hn.
    + by rewrite bool_decide_eq_false_2.
    + rewrite bool_decide_eq_true_2 by done. cbn [foldl].
      pose proof (outlook_with_semaphore (emplace_body n c) q s Hs) as H.
      by destruct (with_semaphore _ _ _ _).
  - unfold rpc.remove. case_bool_decide as Hn.
    + by rewrite bool_decide_eq_false_2.
    + rewrite bool_decide_eq_true_2 by done. cbn [foldl].
      pose proof (outlook_with_semaphore (erase_body n) q s Hs) as H.
      by destruct (with_semaphore _ _ _ _).
  - cbn. destruct (stop_spec s) as (Ht & Hrq & _ & _ & _ & Hh).
    unfold backlog, queue, view. rewrite Ht, Hrq. do 2 f_equal.
    apply list_eq. intros p. rewrite !list_lookup_fmap, Hh.
    destruct (heap s !! p) as [t|]; [|done]. cbn. by rewrite iter_bump.
  - cbn. apply outlook_run_task.
  - cbn. unfold transport_stopped.
    destruct (futures s !! f) as [[[|h] [| |]]|]; done.
Qed.

Lemma outlook_run evs (s : shard) :
  serial s →
  apply_bodies (backlog (run placement evs s)) (view (run placement evs s))
  = apply_bodies (backlog s ++ accepted s evs) (view s).
Proof.
  revert s. induction evs as [|e evs IH]; intros s Hs.
  - cbn. by rewrite app_nil_r.
  - cbn [run foldl]. fold (run placement evs (step placement e s)).
    rewrite IH by (by apply serial_step).
    destruct (step_engine e s) as [Hcpu Hsmp].
    rewrite (accepted_engine s _ evs Hcpu Hsmp).
    unfold apply_bodies at 1. rewrite foldl_app.
    fold (apply_bodies (backlog (step placement e s)) (view (step placement e s))).
    rewrite outlook_step by done.
    change (accepted s (e :: evs)) with (accepted s ([e] ++ evs)).
    unfold accepted at 3. rewrite omap_app. fold (accepted s [e]) (accepted s evs).
    unfold apply_bodies. by rewrite <-foldl_app, <-app_assoc.
Qed.

Lemma outlook_settle (s : shard) :
  serial s → view (settle s) = apply_bodies (backlog s) (view s).
Proof.
  intros Hs.
  assert (Hidle : idle (settle s)) by (by apply serial_settle).
  assert (Hout : ∀ k (s0 : shard),
            apply_bodies (backlog (Nat.iter k run_task s0))
                         (view (Nat.iter k run_task s0))
            = apply_bodies (backlog s0) (view s0)).
  { induction k as [|k IH]; intros s0; [done|].
    rewrite Nat.iter_succ_r, IH. apply outlook_run_task. }
  unfold settle in *.
  set (k := length (run_queue s) + length (wait_list (_sem (this s)))) in *.
  rewrite <-(Hout k s).
  destruct Hidle as [Hsem Hrq]. unfold backlog, queue. by rewrite Hsem, Hrq.
Qed.

(** The mutations of a run take effect one after the other in the order
    of the calls, after those that were under way at the start. *)
Lemma settled_view evs (s : shard) :
  serial s →
  view (settle (run placement evs s))
  = view (run_bodies (backlog s ++ accepted s evs) s).
Proof.
  intros Hs. rewrite outlook_settle by (by apply serial_run).
  by rewrite outlook_run, view_run_bodies.
Qed.

(** X6: the calls of a run are linearized in the order in which they
    were made.  From a state that a run can reach, whatever the calls,
    the answers of the scheduler and the tasks in between, once the
    shard has settled every [lookup] gives what it gives after running,
    one after the other, the bodies of the mutations that were under way
    and then those of the calls that passed the test of the shard; and
    the transport behind it was built from the same configuration. *)
Theorem mutations_take_effect_in_call_order evs (s : shard) n :
  serial s →
  let s' := settle (run placement evs s) in
  let spec := run_bodies (backlog s ++ accepted s evs) s in
  lookup n s' = lookup n spec ∧ lookup_config n s' = lookup_config n spec.
Proof. intros Hs s' spec. by apply lookup_view, settled_view. Qed.

(** X7: scenario C of the specification.  On a settled shard that owns
    the node, an [emplace] and a [remove] of the node called back to
    back, before either has run, end as the order of the two calls
    says: without entry when [remove] was called last, with the
    transport of the call when [emplace] was, whatever the scheduler
    answered. *)
Theorem emplace_and_remove_in_call_order n c q1 q2 (s : shard) :
  serial s → idle s → shard_for s n = cpu_id s →
  lookup n (settle (run placement [call_emplace n c q1; call_remove n q2] s))
  = None ∧
  lookup_config n
    (settle (run placement [call_remove n q1; call_emplace n c q2] s))
  = Some c.
Proof.
  intros Hs [Hsem Hrq] Hown.
  assert (Hb : backlog s = []) by (unfold backlog, queue; by rewrite Hsem, Hrq).
  split.
  - destruct (lookup_view n _ _ (settled_view
      [call_emplace n c q1; call_remove n q2] s Hs)) as [-> _].
    rewrite Hb. cbn. rewrite !bool_decide_eq_true_2 by done. cbn.
    unfold lookup, cache_erase. cbn. apply lookup_delete_eq.
  - destruct (lookup_view n _ _ (settled_view
      [call_remove n q1; call_emplace n c q2] s Hs)) as [_ ->].
    rewrite Hb. cbn. rewrite !bool_decide_eq_true_2 by done.
    cbn [run_bodies foldl].
    apply (lookup_config_intro n _ (length (heap (run_body (erase_body n) s)))
             (Transport c 0)).
    + apply run_body_emplace_absent. unfold lookup, run_body, cache_erase. cbn.
      apply lookup_delete_eq.
    + apply run_body_heap_new.
Qed.

(** ** Every mutation completes *)

Lemma tracked_resolve f0 (fs : list future_cell) f c :
  alter (set_state ready) f0 fs !! f = Some c →
  (f = f0 ∧ state c = ready) ∨
  (f ≠ f0 ∧ fs !! f = Some c).
Proof.
  destruct (decide (f = f0)) as [->|Hne].
  - rewrite list_lookup_alter_eq. destruct (fs !! f0); [|done].
    intros [= <-]. by left.
  - rewrite list_lookup_alter_ne by done. by right.
Qed.

Lemma tracked_with_semaphore b need_preempt (s : shard) :
  tracked s → tracked (with_semaphore 1 b need_preempt s).1.
Proof.
  intros Hs f c.
  destruct (with_semaphore_shape 1 b need_preempt s)
    as (_ & _ & _ & [(Hq & Hf & _)|(_ & Hq & Hf & _)]); rewrite Hq, Hf.
  - intros Hl Ho. rewrite fmap_app.
    destruct (decide (f < length (futures s))) as [Hlt|Hge].
    + rewrite lookup_app_l in Hl by done.
      destruct (Hs f c Hl Ho) as [?|Hin]; [by left|right].
      apply elem_of_app. by left.
    + right. apply elem_of_app. right. cbn. apply list_elem_of_singleton.
      apply lookup_lt_Some in Hl. rewrite length_app in Hl. cbn in Hl. lia.
  - intros [[-> Hr]|[Hne Hl]]%tracked_resolve Ho; [by left|].
    destruct (decide (f < length (futures s))) as [Hlt|Hge].
    + rewrite lookup_app_l in Hl by done. by apply Hs.
    + apply lookup_lt_Some in Hl. rewrite length_app in Hl. cbn in Hl. lia.
Qed.

Lemma tracked_run_task (s : shard) : tracked s → tracked (run_task s).
Proof.
  intros Hs. destruct (run_queue s) as [|w q] eqn:Hrq.
  { unfold run_task. by rewrite Hrq. }
  destruct (run_task_shape w q s Hrq) as (Hq & Hf & _).
  intros f c. rewrite Hq, Hf.
  intros [[-> Hr]|[Hne Hl]]%tracked_resolve Ho; [by left|].
  destruct (Hs f c Hl Ho) as [?|Hin]; [by left|right].
  unfold queue in Hin. rewrite Hrq in Hin. cbn in Hin.
  by apply elem_of_cons in Hin as [?|?].
Qed.

Lemma tracked_step e (s : shard) : tracked s → tracked (step placement e s).
Proof.
  intros Hs. destruct e as [n c q|n q| | |f r]; cbn [step].
  - unfold rpc.emplace. case_bool_decide; [done|].
    pose proof (tracked_with_semaphore (emplace_body n c) q s Hs).
    by destruct (with_semaphore _ _ _ _).
  - unfold rpc.remove. case_bool_decide; [done|].
    pose proof (tracked_with_semaphore (erase_body n) q s Hs).
    by destruct (with_semaphore _ _ _ _).
  - destruct (stop_spec s) as (Ht & Hrq & _ & Hf & _).
    intros f c. unfold queue. rewrite Ht, Hrq, Hf. intros Hl Ho.
    destruct (decide (f < length (futures s))) as [Hlt|Hge].
    + rewrite lookup_app_l in Hl by done. by apply Hs.
    + rewrite lookup_app_r in Hl by lia.
      rewrite list_lookup_fmap in Hl.
      destruct (map_to_list _ !! _); simplify_eq/=.
  - by apply tracked_run_task.
  - unfold transport_stopped.
    destruct (futures s !! f) as [[[|h] [| |]]|] eqn:Hcell; try done.
    intros f' c. unfold queue, resolve. cbn.
    destruct (decide (f' = f)) as [->|Hne].
    + rewrite list_lookup_alter_eq, Hcell. by intros [= <-].
    + rewrite list_lookup_alter_ne by done. apply Hs.
Qed.

Lemma owner_run_task (s : shard) f c :
  futures s !! f = Some c →
  ∃ c', futures (run_task s) !! f = Some c' ∧ owner c' = owner c.
Proof.
  intros Hl. destruct (run_queue s) as [|w q] eqn:Hrq.
  { unfold run_task. rewrite Hrq. by exists c. }
  destruct (run_task_shape w q s Hrq) as (_ & -> & _).
  destruct (decide (f = promise w)) as [->|Hne].
  - rewrite list_lookup_alter_eq, Hl. by eexists.
  - rewrite list_lookup_alter_ne by done. by exists c.
Qed.

(** Once a shard that a run has reached has settled, the future of a
    mutation that the table holds is ready. *)
Lemma settled_future (s : shard) f c :
  serial s → tracked s →
  futures s !! f = Some c → owner c = of_mutation →
  cell_state (settle s) f = ready.
Proof.
  intros Hs Ht Hl Ho.
  assert (Hidle : idle (settle s)) by (by apply serial_settle).
  assert (Hit : ∀ k (s0 : shard) c0, tracked s0 →
            futures s0 !! f = Some c0 → owner c0 = of_mutation →
            tracked (Nat.iter k run_task s0) ∧
            ∃ c', futures (Nat.iter k run_task s0) !! f = Some c' ∧
                  owner c' = of_mutation).
  { induction k as [|k IH]; intros s0 c0 Ht0 Hl0 Ho0; [by eauto|].
    rewrite Nat.iter_succ_r.
    destruct (owner_run_task s0 f c0 Hl0) as (c1 & Hl1 & Ho1).
    apply (IH _ c1); [by apply tracked_run_task|done|congruence]. }
  unfold settle in *.
  set (k := length (run_queue s) + length (wait_list (_sem (this s)))) in *.
  destruct (Hit k s c Ht Hl Ho) as (Ht' & c' & Hl' & Ho').
  unfold cell_state. rewrite Hl'.
  destruct (Ht' f c' Hl' Ho') as [?|Hin]; [done|].
  destruct Hidle as [Hsem Hrq]. unfold queue in Hin.
  rewrite Hsem, Hrq in Hin. by apply elem_of_nil in Hin.
Qed.

Lemma tracked_run cpu smp evs :
  tracked (run placement evs (fresh cpu smp) : shard).
Proof.
  assert (H : ∀ s : shard, tracked s → tracked (run placement evs s)).
  { induction evs as [|e evs IH]; intros s Hs; [done|].
    cbn. apply IH. by apply tracked_step. }
  apply H. intros f c Hl. cbn in Hl. by rewrite lookup_nil in Hl.
Qed.

(** X8: no mutation starves.  In every state that a run reaches,
    however many mutations hold the units or wait for them, [emplace]
    and [remove] on the owning shard return a future, and that future is
    ready once the scheduler has run the tasks that are left. *)
Theorem mutations_complete cpu smp evs n c need_preempt :
  let s : shard := run placement evs (fresh cpu smp) in
  shard_for s n = cpu_id s →
  (∃ f, (emplace n c need_preempt s).2 = returned (single f) ∧
        future_status (settle (emplace n c need_preempt s).1) (single f)
        = ready) ∧
  (∃ f, (remove n need_preempt s).2 = returned (single f) ∧
        future_status (settle (remove n need_preempt s).1) (single f)
        = ready).
Proof.
  intros s Hown.
  assert (Hs : serial s) by (by apply serial_run).
  assert (Ht : tracked s) by apply tracked_run.
  assert (Hcall : ∀ b,
            cell_state (settle (with_semaphore 1 b need_preempt s).1)
                       (with_semaphore 1 b need_preempt s).2 = ready).
  { intros b.
    destruct (with_semaphore_shape 1 b need_preempt s)
      as (-> & _ & _ & Hcases).
    assert (∃ c0, futures (with_semaphore 1 b need_preempt s).1
                    !! length (futures s) = Some c0 ∧
                  owner c0 = of_mutation) as (c0 & Hl & Ho).
    { destruct Hcases as [(_ & -> & _)|(_ & _ & -> & _)].
      - rewrite lookup_app_r, Nat.sub_diag by lia. by eexists.
      - rewrite list_lookup_alter_eq, lookup_app_r, Nat.sub_diag by lia.
        by eexists. }
    apply (settled_future _ _ c0); try done.
    - by apply serial_with_semaphore.
    - by apply tracked_with_semaphore. }
  split.
  - rewrite emplace_owning by done. cbn [fst snd]. eexists. split; [done|].
    apply Hcall.
  - rewrite remove_owning by done. cbn [fst snd]. eexists. split; [done|].
    apply Hcall.
Qed.

(** ** Round trips on a settled shard *)

(** X9: [emplace] then [remove] of a node without entry gives the map
    back as it was: in between [lookup] gives the transport built from
    the configuration, afterwards every node has the handle it had, and
    the transports of these entries are as they were. *)
Theorem emplace_then_remove n c q1 q2 (s : shard) :
  idle s → shard_for s n = cpu_id s → lookup n s = None →
  let s1 := settle (emplace n c q1 s).1 in
  let s2 := settle (remove n q2 s1).1 in
  lookup_config n s1 = Some c ∧
  _cache (this s2) = _cache (this s) ∧
  (∀ m p t, lookup m s2 = Some p → transport_at s p = Some t →
            transport_at s2 p = Some t) ∧
  idle s2.
Proof.
  intros Hidle Hown Habs s1 s2. subst s1 s2.
  rewrite emplace_owning by done. cbn [fst].
  destruct (with_semaphore_settled (emplace_body n c) q1 s Hidle)
    as (_ & Hi1 & _ & Hc1 & Hh1 & Hcpu & Hsmp).
  set (s1 := settle (with_semaphore 1 (emplace_body n c) q1 s).1) in *.
  assert (Hown1 : shard_for s1 n = cpu_id s1)
    by (unfold rpc.shard_for in *; by rewrite Hcpu, Hsmp).
  rewrite remove_owning by done. cbn [fst].
  destruct (with_semaphore_settled (erase_body n) q2 s1 Hi1)
    as (_ & Hi2 & _ & Hc2 & Hh2 & _).
  split; [|split; [|split; [|done]]].
  - apply (lookup_config_intro n _ (length (heap s)) (Transport c 0)).
    + unfold lookup. rewrite Hc1. by apply run_body_emplace_absent.
    + unfold transport_at. rewrite Hh1. apply run_body_heap_new.
  - rewrite Hc2. unfold run_body at 1, cache_erase. cbn. rewrite Hc1.
    unfold run_body, cache_emplace. cbn. unfold lookup in Habs. rewrite Habs.
    by rewrite delete_insert_eq, delete_id.
  - intros m p t _ Ht. unfold transport_at. rewrite Hh2. cbn. rewrite Hh1.
    by apply (run_body_heap (emplace_body n c)).
Qed.

(** X10: [remove] on the owning shard erases: afterwards [lookup] of the
    node gives nothing, every other node has the handle it had, the
    transports of the entries that remain are as they were, and a second
    [remove] changes nothing of the map. *)
Theorem remove_then_lookup n q1 q2 (s : shard) :
  idle s → shard_for s n = cpu_id s →
  let s1 := settle (remove n q1 s).1 in
  let s2 := settle (remove n q2 s1).1 in
  lookup n s1 = None ∧
  (∀ m, m ≠ n → lookup m s1 = lookup m s) ∧
  (∀ m p t, lookup m s1 = Some p → transport_at s p = Some t →
            transport_at s1 p = Some t) ∧
  _cache (this s2) = _cache (this s1).
Proof.
  intros Hidle Hown s1 s2. subst s1 s2.
  rewrite remove_owning by done. cbn [fst].
  destruct (with_semaphore_settled (erase_body n) q1 s Hidle)
    as (_ & Hi1 & _ & Hc1 & Hh1 & Hcpu & Hsmp).
  set (s1 := settle (with_semaphore 1 (erase_body n) q1 s).1) in *.
  assert (Hown1 : shard_for s1 n = cpu_id s1)
    by (unfold rpc.shard_for in *; by rewrite Hcpu, Hsmp).
  assert (Hl1 : lookup n s1 = None).
  { unfold lookup. rewrite Hc1. unfold run_body, cache_erase. cbn.
    apply lookup_delete_eq. }
  rewrite remove_owning by done. cbn [fst].
  destruct (with_semaphore_settled (erase_body n) q2 s1 Hi1)
    as (_ & _ & _ & Hc2 & _).
  split; [done|]. split; [|split].
  - intros m Hm. unfold lookup. rewrite Hc1.
    by apply (run_body_other (erase_body n) m s).
  - intros m p t _ Ht. unfold transport_at. by rewrite Hh1.
  - rewrite Hc2. by apply run_body_erase_absent.
Qed.

(** X11: [emplace] of a node that has an entry still builds a transport
    from its configuration; the map is as it was and no node has the new
    transport. *)
Theorem emplace_on_entry_builds_and_drops n c q p (s : shard) :
  idle s → shard_for s n = cpu_id s → lookup n s = Some p →
  allocated s = true →
  let s1 := settle (emplace n c q s).1 in
  heap s1 = heap s ++ [Transport c 0] ∧
  _cache (this s1) = _cache (this s) ∧
  ∀ m, lookup m s1 ≠ Some (length (heap s)).
Proof.
  intros Hidle Hown Hl Ha s1. subst s1.
  rewrite emplace_owning by done. cbn [fst].
  destruct (with_semaphore_settled (emplace_body n c) q s Hidle)
    as (_ & _ & _ & Hc & Hh & _).
  assert (Hc' : _cache (this (settle (with_semaphore 1 (emplace_body n c) q s).1))
                = _cache (this s))
    by (rewrite Hc; by apply (run_body_emplace_present n c p)).
  split; [by rewrite Hh|]. split; [done|].
  intros m Hm. unfold lookup in Hm. rewrite Hc' in Hm.
  apply (proj1 (allocated_spec s) Ha) in Hm. lia.
Qed.

Lemma with_semaphore_deferred b (s : shard) :
  idle s →
  let s1 := (with_semaphore 1 b true s).1 in
  run_queue s1 = [Waiter 1 (length (futures s)) b] ∧
  _cache (this s1) = _cache (this s) ∧ heap s1 = heap s.
Proof.
  destruct s as [cpu smp [m sem] hp fs rq lg]. intros [Hsem Hrq].
  cbn in Hsem, Hrq. by subst sem rq.
Qed.

(** X12: [stop] does not wait for the mutations.  When an [emplace] of
    a node without entry has been called and its continuation has not
    run yet, [stop] returns the future over the entries of the map as it
    is, without the node; when the continuation then runs, the node has
    its entry, and its transport has not been asked to shut down. *)
Theorem stop_misses_scheduled_emplace n c (s : shard) :
  idle s → shard_for s n = cpu_id s → lookup n s = None →
  let s1 := (emplace n c true s).1 in
  let r := stop s1 in
  let s2 := run_task r.1 in
  lookup n r.1 = None ∧
  (∃ fs, r.2 = returned (for_each fs) ∧ length fs = size (_cache (this s))) ∧
  lookup n s2 = Some (length (heap s)) ∧
  transport_at s2 (length (heap s)) = Some (Transport c 0).
Proof.
  intros Hidle Hown Habs s1 r s2. subst s2 r s1.
  rewrite emplace_owning by done. cbn [fst].
  destruct (with_semaphore_deferred (emplace_body n c) s Hidle)
    as (Hrq & Hc & Hh).
  set (s1 := (with_semaphore 1 (emplace_body n c) true s).1) in *.
  destruct (stop_spec s1) as (Ht & Hq & _ & _ & Hr & _).
  pose proof (stop_heap_length s1) as Hlen. rewrite Hh in Hlen.
  assert (Hl : lookup n (stop s1).1 = None)
    by (unfold lookup in *; by rewrite Ht, Hc).
  rewrite Hrq in Hq.
  destruct (run_task_shape _ _ _ Hq) as (_ & _ & _ & _ & Hc2 & Hh2).
  cbn [body] in Hc2, Hh2.
  split; [done|]. split; [|split].
  - eexists. split; [done|]. by rewrite length_seq, length_map_to_list, Hc.
  - unfold lookup. rewrite Hc2, <-Hlen. by apply run_body_emplace_absent.
  - unfold transport_at. rewrite Hh2, <-Hlen. apply run_body_heap_new.
Qed.

(** ** The registry as a map from nodes to configurations *)

Lemma lookup_config_Some k (s : shard) p :
  allocated s = true → lookup k s = Some p →
  ∃ t, transport_at s p = Some t ∧ lookup_config k s = Some (config t).
Proof.
  intros Ha Hl. pose proof (proj1 (allocated_spec s) Ha k p Hl) as Hlt.
  apply lookup_lt_is_Some in Hlt as [t Ht]. exists t. split; [done|].
  by apply (lookup_config_intro k s p t).
Qed.

Lemma lookup_config_None k (s : shard) :
  lookup k s = None → lookup_config k s = None.
Proof. unfold lookup_config. by intros ->. Qed.

(** The bodies, read on the configurations: [emplace] gives the node
    the configuration of the call unless it has one, [erase] takes the
    node out, and neither changes what another node has. *)
Lemma lookup_config_run_body b k (s : shard) :
  allocated s = true →
  lookup_config k (run_body b s)
  = match b with
    | emplace_body n c =>
        if decide (k = n) then Some (default c (lookup_config n s))
        else lookup_config k s
    | erase_body n =>
        if decide (k = n) then None else lookup_config k s
    end.
Proof.
  intros Ha.
  assert (Hother : target b ≠ k → lookup_config k (run_body b s) = lookup_config k s).
  { intros Hne. pose proof (run_body_other b k s Hne) as Hl.
    destruct (lookup k s) as [p|] eqn:Hk.
    - destruct (lookup_config_Some k s p Ha Hk) as (t & Ht & ->).
      apply (lookup_config_intro k _ p t); [done|by apply run_body_heap].
    - by rewrite !lookup_config_None. }
  destruct b as [n c|n]; case_decide as Hk; try (apply Hother; cbn; congruence).
  - subst k. destruct (lookup n s) as [p|] eqn:Hn.
    + destruct (lookup_config_Some n s p Ha Hn) as (t & Ht & ->).
      cbn [from_option id].
      apply (lookup_config_intro n _ p t).
      * unfold lookup in *. by erewrite run_body_emplace_present.
      * by apply run_body_heap.
    + rewrite (lookup_config_None n s Hn). cbn [from_option id].
      apply (lookup_config_intro n _ (length (heap s)) (Transport c 0)).
      * by apply run_body_emplace_absent.
      * apply run_body_heap_new.
  - subst k. apply lookup_config_None. unfold lookup, run_body, cache_erase.
    cbn. apply lookup_delete_eq.
Qed.

(** X13: seen through the configurations, the registry of the owning
    shard is a map with insert-if-absent and delete.  After [emplace]
    the node has the configuration it had, or that of the call if it
    had none; after [remove] it has none; every other node has what it
    had. *)
Theorem registry_is_a_config_map n c q k (s : shard) :
  idle s → shard_for s n = cpu_id s → allocated s = true →
  lookup_config k (settle (emplace n c q s).1)
  = (if decide (k = n) then Some (default c (lookup_config n s))
     else lookup_config k s) ∧
  lookup_config k (settle (remove n q s).1)
  = (if decide (k = n) then None else lookup_config k s).
Proof.
  intros Hidle Hown Ha.
  rewrite emplace_owning, remove_owning by done. cbn [fst].
  destruct (with_semaphore_settled (emplace_body n c) q s Hidle)
    as (_ & _ & _ & Hc1 & Hh1 & _).
  destruct (with_semaphore_settled (erase_body n) q s Hidle)
    as (_ & _ & _ & Hc2 & Hh2 & _).
  assert (Hv : ∀ s1 s2 : shard, _cache (this s1) = _cache (this s2) →
                 heap s1 = heap s2 → lookup_config k s1 = lookup_config k s2).
  { intros s1 s2 Hc Hh. unfold lookup_config, lookup, transport_at.
    by rewrite Hc, Hh. }
  rewrite (Hv _ _ Hc1 Hh1), (Hv _ _ Hc2 Hh2).
  by rewrite !lookup_config_run_body.
Qed.

Lemma run_body_commute b1 b2 k (s : shard) :
  allocated s = true → target b1 ≠ target b2 →
  lookup_config k (run_body b2 (run_body b1 s))
  = lookup_config k (run_body b1 (run_body b2 s)).
Proof.
  intros Ha Hne.
  rewrite (lookup_config_run_body b2 k) by (by apply allocated_run_body).
  rewrite (lookup_config_run_body b1 k (run_body b2 s))
    by (by apply allocated_run_body).
  destruct b1 as [n1 c1|n1], b2 as [n2 c2|n2]; cbn in Hne;
    rewrite !lookup_config_run_body by done;
    repeat case_decide; simplify_eq; done.
Qed.

(** X14: mutations about different nodes commute.  Two calls about
    different nodes, made back to back on a settled shard in either
    order and whatever the scheduler answers, leave every node with the
    same configuration. *)
Theorem calls_about_different_nodes_commute b1 b2 q1 q2 q3 q4 k (s : shard) :
  serial s → idle s → allocated s = true → target b1 ≠ target b2 →
  lookup_config k (settle (run placement [call_of b1 q1; call_of b2 q2] s))
  = lookup_config k (settle (run placement [call_of b2 q3; call_of b1 q4] s)).
Proof.
  intros Hs [Hsem Hrq] Ha Hne.
  assert (Hb : backlog s = []) by (unfold backlog, queue; by rewrite Hsem, Hrq).
  destruct (lookup_view k _ _ (settled_view [call_of b1 q1; call_of b2 q2] s Hs))
    as [_ ->].
  destruct (lookup_view k _ _ (settled_view [call_of b2 q3; call_of b1 q4] s Hs))
    as [_ ->].
  rewrite Hb. cbn [app].
  assert (Hacc : ∀ b q, accepted s [call_of b q]
                        = if bool_decide (shard_for s (target b) = cpu_id s)
                          then [b] else []).
  { intros [n c|n] q; cbn; by case_bool_decide. }
  change (accepted s [call_of b1 q1; call_of b2 q2])
    with (accepted s ([call_of b1 q1] ++ [call_of b2 q2])).
  change (accepted s [call_of b2 q3; call_of b1 q4])
    with (accepted s ([call_of b2 q3] ++ [call_of b1 q4])).
  unfold accepted at 1 2. rewrite !omap_app.
  fold (accepted s [call_of b1 q1]) (accepted s [call_of b2 q2])
       (accepted s [call_of b2 q3]) (accepted s [call_of b1 q4]).
  rewrite !Hacc. repeat case_bool_decide; cbn; try done.
  by apply run_body_commute.
Qed.

(** ** The claims that rest on the invariants *)

(** C1, amended: the first write wins.  A second [emplace] of a node
    that has an entry leaves the map as it was: [lookup] gives the
    handle it gave before and the transport behind it is untouched; the
    call builds its transport, and no node gets it.  So after
    [emplace(n, c1)] on a shard without entry for [n] and then
    [emplace(n, c2)], [lookup] gives the transport built from [c1], and
    the transport built from [c2] is in no entry of the map. *)
Theorem emplace_keeps_first n c1 c2 need_preempt1 need_preempt2 (s : shard) :
  idle s → shard_for s n = cpu_id s →
  let after c need_preempt s := settle (emplace n c need_preempt s).1 in
  (∀ p, lookup n s = Some p →
        lookup n (after c2 need_preempt2 s) = Some p ∧
        (∀ t, transport_at s p = Some t →
              transport_at (after c2 need_preempt2 s) p = Some t) ∧
        _cache (this (after c2 need_preempt2 s)) = _cache (this s) ∧
        heap (after c2 need_preempt2 s) = heap s ++ [Transport c2 0] ∧
        (allocated s = true →
         ∀ m, lookup m (after c2 need_preempt2 s) ≠ Some (length (heap s)))) ∧
  (lookup n s = None →
   let s1 := after c1 need_preempt1 s in
   let s2 := after c2 need_preempt2 s1 in
   lookup_config n s2 = Some c1 ∧
   lookup n s2 = Some (length (heap s)) ∧
   _cache (this s2) = _cache (this s1) ∧
   heap s2 = heap s ++ [Transport c1 0; Transport c2 0] ∧
   (allocated s = true → ∀ m, lookup m s2 ≠ Some (S (length (heap s))))) ∧
  (∀ w (s0 : shard) p, body w = emplace_body n c2 → lookup n s0 = Some p →
     lookup n (execute w s0) = Some p ∧
     (∀ t, transport_at s0 p = Some t →
           transport_at (execute w s0) p = Some t) ∧
     _cache (this (execute w s0)) = _cache (this s0)).
Proof.
  intros Hidle Hown after.
  assert (Hkeep : ∀ c q (s0 : shard) p, idle s0 → shard_for s0 n = cpu_id s0 →
            lookup n s0 = Some p →
            lookup n (after c q s0) = Some p ∧
            (∀ t, transport_at s0 p = Some t →
                  transport_at (after c q s0) p = Some t) ∧
            _cache (this (after c q s0)) = _cache (this s0) ∧
            heap (after c q s0) = heap s0 ++ [Transport c 0] ∧
            (allocated s0 = true →
             ∀ m, lookup m (after c q s0) ≠ Some (length (heap s0)))).
  { intros c q s0 p Hi Ho Hl. subst after. cbn beta.
    rewrite emplace_owning by done. cbn [fst].
    destruct (with_semaphore_settled (emplace_body n c) q s0 Hi)
      as (_ & _ & _ & Hc & Hh & _).
    assert (Hc' : _cache (this (settle (with_semaphore 1 (emplace_body n c) q s0).1))
                  = _cache (this s0))
      by (rewrite Hc; by apply (run_body_emplace_present n c p)).
    unfold lookup, transport_at. rewrite Hc', Hh.
    split; [done|]. split; [|split; [done|split; [done|]]].
    - intros t Ht. by apply (run_body_heap (emplace_body n c)).
    - intros Ha m Hm. apply (proj1 (allocated_spec s0) Ha) in Hm. lia. }
  split; [intros p Hl; by apply Hkeep|]. split.
  - intros Habs s1 s2.
    assert (Hfirst : idle s1 ∧ shard_for s1 n = cpu_id s1 ∧
              lookup n s1 = Some (length (heap s)) ∧
              transport_at s1 (length (heap s)) = Some (Transport c1 0) ∧
              heap s1 = heap s ++ [Transport c1 0] ∧
              (allocated s = true → allocated s1 = true)).
    { subst s1 after. cbn beta. rewrite emplace_owning by done. cbn [fst].
      destruct (with_semaphore_settled (emplace_body n c1) need_preempt1 s Hidle)
        as (_ & Hi & _ & Hc & Hh & Hcpu & Hsmp).
      split; [done|]. split.
      { unfold rpc.shard_for in *. by rewrite Hcpu, Hsmp. }
      split; [unfold lookup; rewrite Hc; by apply run_body_emplace_absent|].
      split; [unfold transport_at; rewrite Hh; apply run_body_heap_new|].
      split; [by rewrite Hh|].
      intros Ha. apply (allocated_store (run_body (emplace_body n c1) s));
        [done..|]. by apply allocated_run_body. }
    destruct Hfirst as (Hi & Ho & Hl & Ht & Hh1 & Ha1).
    destruct (Hkeep c2 need_preempt2 _ _ Hi Ho Hl)
      as (Hl2 & Ht2 & Hc2 & Hh2 & Hno).
    fold s2 in Hl2, Ht2, Hc2, Hh2, Hno.
    split; [by apply (lookup_config_intro n _ _ _ Hl2 (Ht2 _ Ht))|].
    split; [done|]. split; [done|]. split.
    + rewrite Hh2, Hh1, <-app_assoc. done.
    + intros Ha m. specialize (Hno (Ha1 Ha) m).
      rewrite Hh1, length_app in Hno. cbn in Hno.
      by rewrite Nat.add_1_r in Hno.
  - intros w s0 p Hw Hl. destruct (execute_store w s0) as [Hc0 Hh0].
    assert (Hc' : _cache (this (execute w s0)) = _cache (this s0))
      by (rewrite Hc0, Hw; by apply (run_body_emplace_present n c2 p)).
    unfold lookup, transport_at. rewrite Hc', Hh0, Hw.
    split; [done|]. split; [|done].
    intros t Ht. by apply (run_body_heap (emplace_body n c2)).
Qed.

Lemma executions_acquired
    (l : list (waiter (transport_configuration := transport_configuration))) :
  executions (acquired ∘ promise <$> l) = [].
Proof. induction l as [|w l IH]; [done|]. by cbn. Qed.

(** A continuation that runs writes its round into the log, and the map
    and the store are those its body leaves. *)
Lemma execute_log w (s : shard) :
  ∃ l, slot_log (execute w s) = slot_log s ++ l ∧
       executions l = [promise w] ∧
       view (execute w s) = view (run_body (body w) s).
Proof.
  destruct (execute_store w s) as [Hc Hh].
  assert (Hv : view (execute w s) = view (run_body (body w) s))
    by (unfold view; by rewrite Hc, Hh).
  assert (∃ l, slot_log (execute w s) = slot_log s ++ l ∧
               executions l = [promise w]) as (l & Hl & Hex).
  { unfold execute, signal. cbv zeta.
    destruct (run_body_rest (body w) s) as (Hsem & _ & Hlg).
    cbn [this log _sem]. rewrite Hsem.
    destruct (wake _ _) as [[cnt woken] rest]. cbn.
    rewrite Hlg, <-app_assoc. cbn.
    eexists. split; [done|]. unfold executions. cbn. f_equal.
    apply executions_acquired. }
  by exists l.
Qed.

(** What one step does to the map: nothing, unless it runs the body of
    the one continuation that holds the units, and then that body
    only. *)
Lemma step_in_slot e (s : shard) :
  serial s →
  ∃ l, slot_log (step placement e s) = slot_log s ++ l ∧
    ((executions l = [] ∧ view (step placement e s) = view s) ∨
     (∃ w, executions l = [promise w] ∧
           view (step placement e s) = view (run_body (body w) s) ∧
           ((e = task ∧ run_queue s = [w]) ∨
            (e = call_of (body w) false ∧ queue s = [] ∧
             shard_for s (target (body w)) = cpu_id s ∧
             promise w = length (futures s))))).
Proof.
  intros Hs.
  assert (Hcall : ∀ b q, shard_for s (target b) = cpu_id s →
    ∃ l, slot_log (with_semaphore 1 b q s).1 = slot_log s ++ l ∧
      ((executions l = [] ∧ view (with_semaphore 1 b q s).1 = view s) ∨
       (∃ w, executions l = [promise w] ∧
             view (with_semaphore 1 b q s).1 = view (run_body (body w) s) ∧
             (call_of b q = call_of (body w) false ∧ queue s = [] ∧
              shard_for s (target (body w)) = cpu_id s ∧
              promise w = length (futures s))))).
  { intros b q Hb. unfold serial in Hs.
    unfold with_semaphore, make_future, wait, may_proceed. cbv zeta.
    cbn [this with_futures _sem units].
    destruct (run_queue s) as [|w0 [|w1 rq]] eqn:Hq; [| |done].
    - destruct Hs as [Hsem _]. rewrite Hsem. cbn [count wait_list Nat.leb].
      rewrite bool_decide_eq_true_2 by done. cbn [andb fst].
      destruct q; cbn [fst].
      + exists [acquired (length (futures s))]. split; [done|]. left.
        split; [done|]. unfold view. done.
      + set (w := Waiter 1 (length (futures s)) b). set (s3 := log _ _).
        destruct (execute_log w s3) as (l & Hl & Hex & Hv).
        exists (acquired (length (futures s)) :: l). split.
        { rewrite Hl. subst s3. cbn. by rewrite <-app_assoc. }
        right. exists w. split; [done|]. split.
        { rewrite Hv. subst s3 w. unfold view. cbn. by destruct b. }
        split; [done|]. split; [|done].
        unfold queue. by rewrite Hq, Hsem.
    - destruct Hs as (Hc & _). rewrite Hc. cbn [Nat.leb andb fst].
      exists []. rewrite app_nil_r. split; [done|]. left. by split. }
  destruct e as [n c q|n q| | |f r]; cbn [step].
  - unfold rpc.emplace. case_bool_decide as Hn.
    { exists []. rewrite app_nil_r. split; [done|]. by left. }
    destruct (Hcall (emplace_body n c) q Hn) as (l & Hl & Hcases).
    destruct (with_semaphore _ _ _ _) as [s' f]. cbn [fst] in *.
    exists l. split; [done|]. destruct Hcases as [?|(w & ? & ? & ?)]; [by left|].
    right. exists w. by repeat split; [..|right].
  - unfold rpc.remove. case_bool_decide as Hn.
    { exists []. rewrite app_nil_r. split; [done|]. by left. }
    destruct (Hcall (erase_body n) q Hn) as (l & Hl & Hcases).
    destruct (with_semaphore _ _ _ _) as [s' f]. cbn [fst] in *.
    exists l. split; [done|]. destruct Hcases as [?|(w & ? & ? & ?)]; [by left|].
    right. exists w. by repeat split; [..|right].
  - destruct (stop_spec s) as (Ht & _ & Hlg & _ & _ & Hh).
    exists []. rewrite app_nil_r. split; [done|]. left. split; [done|].
    unfold view. rewrite Ht. f_equal.
    apply list_eq. intros p. rewrite !list_lookup_fmap, Hh.
    destruct (heap s !! p) as [t|]; [|done]. cbn. by rewrite iter_bump.
  - unfold run_task. unfold serial in Hs.
    destruct (run_queue s) as [|w [|w1 rq]] eqn:Hq; [| |done].
    { exists []. rewrite app_nil_r. split; [done|]. by left. }
    destruct (execute_log w (with_run_queue s [])) as (l & Hl & Hex & Hv).
    exists l. split; [done|]. right. exists w. split; [done|]. split.
    { rewrite Hv. unfold view. by destruct (body w). }
    by left.
  - exists []. rewrite app_nil_r. unfold transport_stopped.
    destruct (futures s !! f) as [[[|h] [| |]]|]; split; try done; by left.
Qed.

(** C4: on a registry that starts with its single unit, whatever is
    called and however the scheduler runs the tasks, at most one
    mutation holds the slot at any instant (in the state, and after
    every prefix of the log of the semaphore), the log is a sequence of
    acquire, run, release rounds, and the bodies run in the order in
    which the units were taken.  The map is bound to the slot: a step
    leaves the map and the transports built so far as they are unless it
    runs exactly one body, that of the continuation that holds the
    units (as a task) or of a call that finds the slot free with nobody
    waiting, and the map and the store are then those this body
    leaves. *)
Theorem mutations_are_serialized cpu smp evs :
  let s : shard := run placement evs (fresh cpu smp) in
  length (run_queue s) ≤ 1 ∧
  (∀ p, p `prefix_of` slot_log s → (0 ≤ holders p ≤ 1)%Z) ∧
  is_Some (slot_after slot_free (slot_log s)) ∧
  executions (slot_log s) `prefix_of` acquisitions (slot_log s) ∧
  acquisitions (slot_log s) = executions (slot_log s) ++ (promise <$> run_queue s) ∧
  (∀ e, ∃ l, slot_log (step placement e s) = slot_log s ++ l ∧
     ((executions l = [] ∧ view (step placement e s) = view s) ∨
      (∃ w, executions l = [promise w] ∧
            view (step placement e s) = view (run_body (body w) s) ∧
            ((e = task ∧ run_queue s = [w]) ∨
             (e = call_of (body w) false ∧ queue s = [] ∧
              shard_for s (target (body w)) = cpu_id s ∧
              promise w = length (futures s)))))).
Proof.
  intros s. assert (Hs : serial s) by (by apply serial_run).
  pose proof Hs as Hs'. unfold serial in Hs.
  assert (∃ st, slot_after slot_free (slot_log s) = Some st ∧
                awaiting st = promise <$> run_queue s ∧
                length (run_queue s) ≤ 1) as (st & Hst & Haw & Hlen).
  { destruct (run_queue s) as [|w [|w1 rq]]; [| |done].
    - destruct Hs as [_ Hlog]. exists slot_free. cbn. by split; [|split; [|lia]].
    - destruct Hs as (_ & _ & _ & Hlog). exists (slot_held (promise w)). cbn.
      by split; [|split; [|lia]]. }
  pose proof (slot_after_order _ _ _ Hst) as Hord. cbn in Hord.
  rewrite Haw in Hord.
  split; [done|]. split; [|split; [by eexists|split; [|split; [done|]]]].
  - intros p Hp. by apply (slot_after_holders _ _ _ Hst p Hp).
  - rewrite Hord. by apply prefix_app_r.
  - intros e. by apply step_in_slot.
Qed.

End properties.

(** * The scenarios, evaluated *)

Example contention_log :
  slot_log (run modulo contention shard0)
  = [acquired 0; executed 0; released 0; acquired 1; executed 1; released 1;
     acquired 2; executed 2; released 2; acquired 3; executed 3; released 3].
Proof. vm_compute. reflexivity. Qed.

Example contention_result :
  map_to_list (_cache (this (run modulo contention shard0))) = [(6%Z, 1); (4%Z, 2)].
Proof. vm_compute. reflexivity. Qed.

Example scenario_D :
  (emplace modulo 4 "C1" false shard1).2
  = threw (runtime_error (Cannot "::emplace" 4 0 1)) ∧
  (emplace modulo 4 "C1" false shard1).1 = shard1.
Proof. vm_compute. split; reflexivity. Qed.

(** C1, as stated, fails: after [emplace(4, "C1")] and [emplace(4, "C2")]
    on the owning shard, [lookup(4)] gives the transport built from
    "C1", not the one built from "C2". *)
Lemma last_write_does_not_win :
  shard_for modulo shard0 4 = cpu_id shard0 ∧
  lookup_config 4 scenario_B = Some "C1" ∧
  lookup_config 4 scenario_B ≠ Some "C2".
Proof. vm_compute. repeat split. intros [=]. Qed.

(** C7, as stated, fails: [emplace(6, "new")] on a shard that has an
    entry for node 6 succeeds, and [lookup(6)] then gives a transport
    that was not built from "new". *)
Lemma emplace_succeeds_without_its_config :
  shard_for modulo one_entry 6 = cpu_id one_entry ∧
  (emplace modulo 6 "new" false one_entry).2 = returned (single 1) ∧
  future_status (settle (emplace modulo 6 "new" false one_entry).1) (single 1)
  = ready ∧
  lookup_config 6 (settle (emplace modulo 6 "new" false one_entry).1)
  ≠ Some "new".
Proof. vm_compute. repeat split. intros [=]. Qed.

(** C2, as stated, fails: after [emplace(4, "C1")] and [stop()] the map
    has one entry, not none. *)
Lemma stop_leaves_the_entries :
  size (_cache (this scenario_A)) = 1 ∧
  size (_cache (this scenario_A)) ≠ 0 ∧
  lookup 4 scenario_A = Some 0.
Proof. vm_compute. repeat split. intros [=]. Qed.

(** * The theorems at the scenarios *)

Lemma foreign_mutation_throws_at_shard0 :
  shard_for modulo shard0 3 ≠ cpu_id shard0 ∧
  (emplace modulo 3 "C1" false shard0).2
  = threw (runtime_error (Cannot "::emplace" 3 1 0)) ∧
  (remove modulo 3 false shard0).2
  = threw (runtime_error (Cannot "::remove" 3 1 0)) ∧
  _cache (this (emplace modulo 3 "C1" false shard0).1) = _cache (this shard0).
Proof.
  assert (H : shard_for modulo shard0 3 ≠ cpu_id shard0) by (vm_compute; lia).
  destruct (foreign_mutation_throws modulo 3 "C1" false shard0 H)
    as (Hi & Hr & _ & Hc & _).
  split; [exact H|]. split; [exact Hi|]. split; [exact Hr|exact Hc].
Defined.

Lemma foreign_mutation_spares_semaphore_at_one_entry :
  shard_for modulo one_entry 3 ≠ cpu_id one_entry ∧
  _sem (this (emplace modulo 3 "C1" true one_entry).1) = _sem (this one_entry) ∧
  slot_log (remove modulo 3 true one_entry).1 = slot_log one_entry.
Proof.
  assert (H : shard_for modulo one_entry 3 ≠ cpu_id one_entry)
    by (vm_compute; lia).
  destruct (foreign_mutation_spares_semaphore modulo 3 "C1" true one_entry H)
    as ((Hi & _) & _ & (_ & Hr) & _).
  split; [exact H|]. split; [exact Hi|exact Hr].
Defined.

Lemma remove_absent_is_noop_at_one_entry :
  (idle one_entry ∧ shard_for modulo one_entry 4 = cpu_id one_entry ∧
   lookup 4 one_entry = None) ∧
  _cache (this (settle (remove modulo 4 true one_entry).1))
  = _cache (this one_entry).
Proof.
  assert (Hi : idle one_entry) by (split; vm_compute; reflexivity).
  assert (Ho : shard_for modulo one_entry 4 = cpu_id one_entry)
    by (vm_compute; reflexivity).
  assert (Hl : lookup 4 one_entry = None) by (vm_compute; reflexivity).
  destruct (remove_absent_is_noop modulo 4 true one_entry Hi Ho Hl)
    as (_ & Hc & _).
  split; [by repeat split|exact Hc].
Defined.

Lemma emplace_then_lookup_at_one_entry :
  (idle one_entry ∧ shard_for modulo one_entry 4 = cpu_id one_entry ∧
   lookup 4 one_entry = None ∧
   shard_for modulo one_entry 6 = cpu_id one_entry ∧
   lookup 6 one_entry = Some 0 ∧
   transport_at one_entry 0 = Some (Transport "C0" 0)) ∧
  lookup_config 4 (settle (emplace modulo 4 "C1" true one_entry).1) = Some "C1" ∧
  lookup 6 (settle (emplace modulo 6 "new" true one_entry).1) = Some 0 ∧
  transport_at (settle (emplace modulo 6 "new" true one_entry).1) 0
  = Some (Transport "C0" 0).
Proof.
  assert (Hi : idle one_entry) by (split; vm_compute; reflexivity).
  assert (Ho : shard_for modulo one_entry 4 = cpu_id one_entry)
    by (vm_compute; reflexivity).
  assert (Hl : lookup 4 one_entry = None) by (vm_compute; reflexivity).
  assert (Ho6 : shard_for modulo one_entry 6 = cpu_id one_entry)
    by (vm_compute; reflexivity).
  assert (Hl6 : lookup 6 one_entry = Some 0) by (vm_compute; reflexivity).
  assert (Ht6 : transport_at one_entry 0 = Some (Transport "C0" 0))
    by (vm_compute; reflexivity).
  destruct (emplace_then_lookup modulo 4 "C1" true one_entry Hi Ho)
    as (_ & _ & Hc & _).
  destruct (emplace_then_lookup modulo 6 "new" true one_entry Hi Ho6)
    as (_ & _ & _ & _ & _ & _ & Hold & _).
  destruct (Hold 0 Hl6) as [Hl6' Ht6'].
  split; [by repeat split|]. split; [exact (Hc Hl)|].
  split; [exact Hl6'|exact (Ht6' _ Ht6)].
Defined.

Lemma emplace_keeps_first_at_shard0 :
  (idle shard0 ∧ shard_for modulo shard0 4 = cpu_id shard0 ∧
   lookup 4 shard0 = None ∧ allocated shard0 = true) ∧
  lookup_config 4 scenario_B = Some "C1" ∧
  _cache (this scenario_B)
  = _cache (this (settle (emplace modulo 4 "C1" false shard0).1)) ∧
  (∀ m, lookup m scenario_B ≠ Some 1).
Proof.
  assert (Hi : idle shard0) by (split; vm_compute; reflexivity).
  assert (Ho : shard_for modulo shard0 4 = cpu_id shard0)
    by (vm_compute; reflexivity).
  assert (Hl : lookup 4 shard0 = None) by (vm_compute; reflexivity).
  assert (Ha : allocated shard0 = true) by (vm_compute; reflexivity).
  destruct (emplace_keeps_first modulo 4 "C1" "C2" false false shard0 Hi Ho)
    as (_ & Hc & _).
  destruct (Hc Hl) as (Hcfg & _ & Hcache & _ & Hno).
  split; [by repeat split|]. split; [exact Hcfg|].
  split; [exact Hcache|exact (Hno Ha)].
Defined.

Lemma mutation_frame_at_one_entry :
  (4 ≠ 6)%Z ∧
  lookup 6 (emplace modulo 4 "C1" false one_entry).1 = lookup 6 one_entry ∧
  lookup 6 (remove modulo 4 false one_entry).1 = lookup 6 one_entry.
Proof.
  assert (H : (4 ≠ 6)%Z) by lia.
  destruct (mutation_frame modulo 4 6 "C1" false one_entry H)
    as ((Hi & _) & (Hr & _) & _).
  split; [exact H|]. split; [exact Hi|exact Hr].
Defined.

Lemma emplace_then_stop_at_one_entry :
  (idle one_entry ∧ shard_for modulo one_entry 4 = cpu_id one_entry ∧
   lookup 4 one_entry = None ∧ allocated one_entry = true) ∧
  size (_cache (this (stop two_entries).1)) = 2 ∧
  ∃ p, lookup 4 (stop two_entries).1 = Some p ∧
       transport_at (stop two_entries).1 p = Some (Transport "C1" 1).
Proof.
  assert (Hi : idle one_entry) by (split; vm_compute; reflexivity).
  assert (Ho : shard_for modulo one_entry 4 = cpu_id one_entry)
    by (vm_compute; reflexivity).
  assert (Hl : lookup 4 one_entry = None) by (vm_compute; reflexivity).
  assert (Ha : allocated one_entry = true) by (vm_compute; reflexivity).
  destruct (emplace_then_stop modulo 4 "C1" false one_entry Hi Ho Hl Ha)
    as (_ & Hsz & p & Hp & _ & Ht).
  split; [by repeat split|]. split; [exact Hsz|].
  exists p. split; [exact Hp|exact Ht].
Defined.

Lemma stop_waits_for_every_shutdown_at_two_entries :
  (stop two_entries).2 = returned (for_each [2; 3]) ∧
  future_status (run modulo [stopped 2 (Some (transport_failure 7))]
                     (stop two_entries).1) (for_each [2; 3]) = pending ∧
  Forall (λ f, cell_state (run modulo shutdown_answers (stop two_entries).1) f
               ≠ pending) [2; 3].
Proof.
  destruct (stop_waits_for_every_shutdown modulo two_entries)
    as (fs & Hr & _ & Hlater).
  assert (Hfs : fs = [2; 3]).
  { assert (Hc : (stop two_entries).2 = returned (for_each [2; 3]))
      by (vm_compute; reflexivity).
    rewrite Hc in Hr. by injection Hr as <-. }
  subst fs. split; [exact Hr|]. split.
  - destruct (Hlater [stopped 2 (Some (transport_failure 7))]) as (Hp & _).
    apply Hp. apply Exists_cons_tl, Exists_cons_hd. vm_compute. reflexivity.
  - destruct (Hlater shutdown_answers) as (_ & Hf & _).
    apply (Hf (transport_failure 7)). vm_compute. reflexivity.
Defined.

Lemma stop_twice_asks_twice_at_two_entries :
  (lookup 4 (run modulo two_entries_calls (fresh 0 2)) = Some 1 ∧
   transport_at (run modulo two_entries_calls (fresh 0 2)) 1
   = Some (Transport "C1" 0)) ∧
  transport_at (stop (stop (run modulo two_entries_calls (fresh 0 2))).1).1 1
  = Some (Transport "C1" 2).
Proof.
  assert (Hl : lookup 4 (run modulo two_entries_calls (fresh 0 2)) = Some 1)
    by (vm_compute; reflexivity).
  assert (Ht : transport_at (run modulo two_entries_calls (fresh 0 2)) 1
               = Some (Transport "C1" 0)) by (vm_compute; reflexivity).
  split; [by split|].
  exact (stop_twice_asks_twice modulo 0 2 two_entries_calls 4 1
           (Transport "C1" 0) Hl Ht).
Defined.

Lemma only_stop_asks_at_one_entry :
  (call_remove 4 false ≠ call_stop (transport_configuration := string) ∧
   lookup 6 (step modulo (call_remove 4 false) two_entries) = Some 0 ∧
   transport_at two_entries 0 = Some (Transport "C0" 0)) ∧
  transport_at (step modulo (call_remove 4 false) two_entries) 0
  = Some (Transport "C0" 0).
Proof.
  assert (He : call_remove 4 false ≠ call_stop (transport_configuration := string))
    by discriminate.
  assert (Hl : lookup 6 (step modulo (call_remove 4 false) two_entries) = Some 0)
    by (vm_compute; reflexivity).
  assert (Ht : transport_at two_entries 0 = Some (Transport "C0" 0))
    by (vm_compute; reflexivity).
  split; [by repeat split|].
  exact (only_stop_asks modulo (call_remove 4 false) two_entries 6 0
           (Transport "C0" 0) He Hl Ht).
Defined.

Lemma entries_are_owned_at_busy :
  is_Some (lookup 4 (run modulo (busy_calls ++ [task]) (fresh 0 2))) ∧
  shard_for modulo (run modulo (busy_calls ++ [task]) (fresh 0 2)) 4 = 0.
Proof.
  assert (H : is_Some (lookup 4 (run modulo (busy_calls ++ [task]) (fresh 0 2))))
    by (vm_compute; eexists; reflexivity).
  split; [exact H|].
  exact (entries_are_owned modulo 0 2 (busy_calls ++ [task]) 4 H).
Defined.

Lemma busy_is_serial : serial busy.
Proof.
  unfold serial. vm_compute.
  split; [reflexivity|]. split; [reflexivity|]. split; [|reflexivity].
  constructor; [reflexivity|constructor].
Defined.

Lemma mutations_take_effect_in_call_order_at_busy :
  serial busy ∧
  backlog busy ++ accepted modulo busy later_calls
  = [emplace_body 4 "a"; emplace_body 6 "b"; erase_body 6;
     emplace_body 8 "d"; emplace_body 6 "f"] ∧
  lookup_config 6 (settle (run modulo later_calls busy)) = Some "f" ∧
  lookup_config 4 (settle (run modulo later_calls busy)) = Some "a".
Proof.
  split; [exact busy_is_serial|]. split; [vm_compute; reflexivity|].
  destruct (mutations_take_effect_in_call_order modulo later_calls busy 6
              busy_is_serial) as [_ H6].
  destruct (mutations_take_effect_in_call_order modulo later_calls busy 4
              busy_is_serial) as [_ H4].
  split; [rewrite H6|rewrite H4]; vm_compute; reflexivity.
Defined.

Lemma one_entry_is_serial : serial one_entry.
Proof. unfold serial. vm_compute. split; reflexivity. Defined.

Lemma emplace_and_remove_in_call_order_at_one_entry :
  (serial one_entry ∧ idle one_entry ∧
   shard_for modulo one_entry 6 = cpu_id one_entry) ∧
  lookup 6 (settle (run modulo [call_emplace 6 "new" true; call_remove 6 false]
                        one_entry)) = None ∧
  lookup_config 6
    (settle (run modulo [call_remove 6 true; call_emplace 6 "new" true]
                 one_entry)) = Some "new".
Proof.
  assert (Hi : idle one_entry) by (split; vm_compute; reflexivity).
  assert (Ho : shard_for modulo one_entry 6 = cpu_id one_entry)
    by (vm_compute; reflexivity).
  split; [split; [exact one_entry_is_serial|by split]|].
  exact (emplace_and_remove_in_call_order modulo 6 "new" true false one_entry
           one_entry_is_serial Hi Ho).
Defined.

Lemma mutations_complete_at_busy :
  shard_for modulo (run modulo busy_calls (fresh 0 2)) 8 = 0 ∧
  (emplace modulo 8 "d" false (run modulo busy_calls (fresh 0 2))).2
  = returned (single 2) ∧
  future_status
    (settle (emplace modulo 8 "d" false (run modulo busy_calls (fresh 0 2))).1)
    (single 2) = ready.
Proof.
  assert (H : shard_for modulo (run modulo busy_calls (fresh 0 2)) 8 = 0)
    by (vm_compute; reflexivity).
  destruct (mutations_complete modulo 0 2 busy_calls 8 "d" false H)
    as [(f & Hr & Hf) _].
  assert (Hf2 : f = 2).
  { assert (Hc : (emplace modulo 8 "d" false
                    (run modulo busy_calls (fresh 0 2))).2
                 = returned (single 2)) by (vm_compute; reflexivity).
    rewrite Hc in Hr. by injection Hr as <-. }
  subst f. split; [exact H|]. split; [exact Hr|exact Hf].
Defined.

Lemma emplace_then_remove_at_one_entry :
  (idle one_entry ∧ shard_for modulo one_entry 4 = cpu_id one_entry ∧
   lookup 4 one_entry = None) ∧
  _cache (this (settle (remove modulo 4 true
                          (settle (emplace modulo 4 "C1" false one_entry).1)).1))
  = _cache (this one_entry).
Proof.
  assert (Hi : idle one_entry) by (split; vm_compute; reflexivity).
  assert (Ho : shard_for modulo one_entry 4 = cpu_id one_entry)
    by (vm_compute; reflexivity).
  assert (Hl : lookup 4 one_entry = None) by (vm_compute; reflexivity).
  destruct (emplace_then_remove modulo 4 "C1" false true one_entry Hi Ho Hl)
    as (_ & Hc & _).
  split; [by repeat split|exact Hc].
Defined.

Lemma remove_then_lookup_at_one_entry :
  (idle two_entries ∧ shard_for modulo two_entries 6 = cpu_id two_entries) ∧
  lookup 6 two_entries = Some 0 ∧
  lookup 6 (settle (remove modulo 6 true two_entries).1) = None ∧
  lookup 4 (settle (remove modulo 6 true two_entries).1) = lookup 4 two_entries.
Proof.
  assert (Hi : idle two_entries) by (split; vm_compute; reflexivity).
  assert (Ho : shard_for modulo two_entries 6 = cpu_id two_entries)
    by (vm_compute; reflexivity).
  destruct (remove_then_lookup modulo 6 true false two_entries Hi Ho)
    as (Hl & Hother & _).
  split; [by split|]. split; [vm_compute; reflexivity|].
  split; [exact Hl|]. apply Hother. lia.
Defined.

Lemma emplace_on_entry_builds_and_drops_at_one_entry :
  (idle one_entry ∧ shard_for modulo one_entry 6 = cpu_id one_entry ∧
   lookup 6 one_entry = Some 0 ∧ allocated one_entry = true) ∧
  heap (settle (emplace modulo 6 "new" false one_entry).1)
  = heap one_entry ++ [Transport "new" 0].
Proof.
  assert (Hi : idle one_entry) by (split; vm_compute; reflexivity).
  assert (Ho : shard_for modulo one_entry 6 = cpu_id one_entry)
    by (vm_compute; reflexivity).
  assert (Hl : lookup 6 one_entry = Some 0) by (vm_compute; reflexivity).
  assert (Ha : allocated one_entry = true) by (vm_compute; reflexivity).
  destruct (emplace_on_entry_builds_and_drops modulo 6 "new" false 0 one_entry
              Hi Ho Hl Ha) as (Hh & _).
  split; [by repeat split|exact Hh].
Defined.

Lemma stop_misses_scheduled_emplace_at_one_entry :
  (idle one_entry ∧ shard_for modulo one_entry 4 = cpu_id one_entry ∧
   lookup 4 one_entry = None) ∧
  (stop (emplace modulo 4 "C1" true one_entry).1).2 = returned (for_each [2]) ∧
  transport_at (run_task (stop (emplace modulo 4 "C1" true one_entry).1).1) 1
  = Some (Transport "C1" 0).
Proof.
  assert (Hi : idle one_entry) by (split; vm_compute; reflexivity).
  assert (Ho : shard_for modulo one_entry 4 = cpu_id one_entry)
    by (vm_compute; reflexivity).
  assert (Hl : lookup 4 one_entry = None) by (vm_compute; reflexivity).
  destruct (stop_misses_scheduled_emplace modulo 4 "C1" one_entry Hi Ho Hl)
    as (_ & _ & _ & Ht).
  split; [by repeat split|]. split; [vm_compute; reflexivity|exact Ht].
Defined.

Lemma registry_is_a_config_map_at_one_entry :
  (idle one_entry ∧ shard_for modulo one_entry 6 = cpu_id one_entry ∧
   allocated one_entry = true) ∧
  lookup_config 6 (settle (emplace modulo 6 "new" true one_entry).1) = Some "C0" ∧
  lookup_config 6 (settle (remove modulo 6 true one_entry).1) = None.
Proof.
  assert (Hi : idle one_entry) by (split; vm_compute; reflexivity).
  assert (Ho : shard_for modulo one_entry 6 = cpu_id one_entry)
    by (vm_compute; reflexivity).
  assert (Ha : allocated one_entry = true) by (vm_compute; reflexivity).
  destruct (registry_is_a_config_map modulo 6 "new" true 6 one_entry Hi Ho Ha)
    as [He Hr].
  split; [by repeat split|]. split.
  - rewrite He. vm_compute. reflexivity.
  - rewrite Hr. vm_compute. reflexivity.
Defined.

Lemma calls_about_different_nodes_commute_at_one_entry :
  (serial one_entry ∧ idle one_entry ∧ allocated one_entry = true ∧
   (6 ≠ 4)%Z) ∧
  lookup_config 4
    (settle (run modulo [call_remove 6 true; call_emplace 4 "C1" false] one_entry))
  = lookup_config 4
      (settle (run modulo [call_emplace 4 "C1" true; call_remove 6 true] one_entry)).
Proof.
  assert (Hi : idle one_entry) by (split; vm_compute; reflexivity).
  assert (Ha : allocated one_entry = true) by (vm_compute; reflexivity).
  assert (Hne : target (erase_body (transport_configuration := string) 6)
                ≠ target (emplace_body 4 "C1")) by (cbn; lia).
  split; [split; [exact one_entry_is_serial|split; [exact Hi|split; [exact Ha|lia]]]|].
  exact (calls_about_different_nodes_commute modulo (erase_body 6)
           (emplace_body 4 "C1") true false true true 4 one_entry
           one_entry_is_serial Hi Ha Hne).
Defined.
